(** * Verification of the httpx client and its auth package

    A shallow embedding of [client.go] (package httpx) and of the two files
    of package auth ([TokenAuthTransport], [JWTToken]).  The Go standard
    library functions the code calls ([strings.Split], base64url decoding,
    [json.Unmarshal], [json.Decoder.Decode], [io.Copy], [ioutil.ReadAll],
    [http.Header.Set]) are modelled by small executable definitions. *)

From Stdlib Require Import ZArith QArith Ascii String List Lia.
From stdpp Require Import base list strings pretty.
Import ListNotations.

Open Scope Z_scope.
#[local] Set Warnings "-register-all".

(* ================================================================== *)
(** ** Go integers *)

Definition int64_min : Z := - 2 ^ 63.
Definition int64_max : Z := 2 ^ 63 - 1.

(** Two's complement wrap-around of Go's [int64] arithmetic. *)
Definition wrap64 (z : Z) : Z := (z + 2 ^ 63) mod 2 ^ 64 - 2 ^ 63.

Definition in_int64 (z : Z) : Prop := int64_min <= z <= int64_max.

(** [int64(f)] for a [float64] [f], given by its exact value: truncation
    toward zero; out of range the amd64 conversion yields the "integer
    indefinite" value [-2^63]. *)
Definition float_to_int64 (q : Q) : Z :=
  let t := Z.quot (Qnum q) (Zpos (Qden q)) in
  if (int64_min <=? t) && (t <=? int64_max) then t else int64_min.

(* ================================================================== *)
(** ** float64 *)

(** [a / b] rounded to the nearest integer, ties to even ([b > 0]). *)
Definition round_div_even (a b : Z) : Z :=
  let q := a / b in
  let r := a mod b in
  if 2 * r <? b then q
  else if b <? 2 * r then q + 1
  else if Z.even q then q else q + 1.

(** [strconv.ParseFloat(s, 64)] on the exact value [x] of a decimal
    literal: the nearest float64 (ties to even; 52-bit fraction,
    subnormals down to 2^-1074), as a reduced fraction, or [None] for the
    range error when the rounded value reaches 2^1024 (returned as an
    infinity). *)
Definition float64_of_Q (x : Q) : option Q :=
  let n := Qnum x in
  let d := Zpos (Qden x) in
  if n =? 0 then Some 0%Q
  else
    let a := Z.abs n in
    let k0 := Z.log2 a - Z.log2 d in
    (* k = floor (log2 (a / d)) *)
    let k := if (if 0 <=? k0 then d * 2 ^ k0 <=? a else d <=? a * 2 ^ (- k0))
             then k0 else k0 - 1 in
    let e := Z.max (k - 52) (-1074) in
    let m := if 0 <=? e then round_div_even a (d * 2 ^ e)
             else round_div_even (a * 2 ^ (- e)) d in
    if (0 <? m) && (1024 <=? Z.log2 m + e) then None
    else
      let sm := Z.sgn n * m in
      Some (Qred (if 0 <=? e then Qmake (sm * 2 ^ e) 1 else Qmake sm (Z.to_pos (2 ^ (- e))))).

(* ================================================================== *)
(** ** Go errors *)

Inductive ctx_err := Canceled | DeadlineExceeded.

Inductive json_err := JSyntax | JTypeMismatch.

(** Errors are kept structured; [fmt.Errorf("prefix: %w", e)] is
    [ErrWrap "prefix" e]. *)
Inductive error :=
  | ErrText (msg : string)                 (* errors.New(msg) *)
  | ErrWrap (prefix : string) (e : error)  (* fmt.Errorf(prefix + ": %w", e) *)
  | ErrSlash (prefix : string) (urlStr : string)
      (* fmt.Errorf(prefix + ": url must have a preceding slash, but %q does not", urlStr) *)
  | ErrCtx (c : ctx_err)                   (* ctx.Err() *)
  | ErrEOF                                 (* io.EOF *)
  | ErrUnexpectedEOF                       (* io.ErrUnexpectedEOF *)
  | ErrBase64                              (* base64.CorruptInputError *)
  | ErrJSON (j : json_err)                 (* *json.SyntaxError, *json.UnmarshalTypeError *)
  | ErrIO (msg : string)                   (* any other error of a reader or writer *)
  | ErrResponse (status : Z) (method url errMessage : string).
      (* *httpx.Response used as an error value *)

(** [errors.Is(err, io.EOF)]: follows the [%w] chain. *)
Fixpoint is_EOF (e : error) : bool :=
  match e with
  | ErrEOF => true
  | ErrWrap _ e' => is_EOF e'
  | _ => false
  end.

(* ================================================================== *)
(** ** strings.Split *)

Definition dot : ascii := "."%char.

(** [strings.Split(s, sep)] for a one-character separator: one piece more
    than there are separators. *)
Fixpoint split (sep : ascii) (s : string) : list string :=
  match s with
  | EmptyString => [""%string]
  | String c rest =>
      let parts := split sep rest in
      if Ascii.eqb c sep then ""%string :: parts
      else match parts with
           | p :: ps => String c p :: ps
           | [] => [String c ""]
           end
  end.

Fixpoint count_char (sep : ascii) (s : string) : nat :=
  match s with
  | EmptyString => 0
  | String c rest => (if Ascii.eqb c sep then 1 else 0) + count_char sep rest
  end.

(** [strings.Repeat("=", n)] *)
Fixpoint repeat_eq (n : nat) : string :=
  match n with
  | O => ""
  | S k => String "=" (repeat_eq k)
  end.

(* ================================================================== *)
(** ** base64.URLEncoding.DecodeString *)

Definition b64url_value (c : ascii) : option N :=
  let n := N_of_ascii c in
  if (65 <=? n)%N && (n <=? 90)%N then Some (n - 65)%N
  else if (97 <=? n)%N && (n <=? 122)%N then Some (n - 71)%N
  else if (48 <=? n)%N && (n <=? 57)%N then Some (n + 4)%N
  else if (n =? 45)%N then Some 62%N
  else if (n =? 95)%N then Some 63%N
  else None.

Definition is_newline (c : ascii) : bool :=
  Ascii.eqb c "010"%char || Ascii.eqb c "013"%char.

Definition byte (n : N) : ascii := ascii_of_N (N.land n 255).

(** Decoding of the 4-character quanta of a padded input (the decoder
    skips carriage returns and line feeds everywhere).  Padding may only
    close the last quantum. *)
Fixpoint b64_quanta (cs : list ascii) : option (list ascii) :=
  match cs with
  | [] => Some []
  | c1 :: c2 :: c3 :: c4 :: rest =>
      match b64url_value c1, b64url_value c2 with
      | Some v1, Some v2 =>
          let b1 := byte (N.lor (N.shiftl v1 2) (N.shiftr v2 4)) in
          match b64url_value c3, b64url_value c4 with
          | Some v3, Some v4 =>
              let b2 := byte (N.lor (N.shiftl (N.land v2 15) 4) (N.shiftr v3 2)) in
              let b3 := byte (N.lor (N.shiftl (N.land v3 3) 6) v4) in
              match b64_quanta rest with
              | Some bs => Some (b1 :: b2 :: b3 :: bs)
              | None => None
              end
          | Some v3, None =>
              if Ascii.eqb c4 "=" && bool_decide (rest = []) then
                Some [b1; byte (N.lor (N.shiftl (N.land v2 15) 4) (N.shiftr v3 2))]
              else None
          | None, _ =>
              if Ascii.eqb c3 "=" && Ascii.eqb c4 "=" && bool_decide (rest = [])
              then Some [b1] else None
          end
      | _, _ => None
      end
  | _ => None
  end.

Definition b64url_decode (s : string) : option (list ascii) :=
  b64_quanta (filter (fun c => negb (is_newline c)) (list_ascii_of_string s)).

(* ================================================================== *)
(** ** JSON values and the encoding/json parser *)

(** A JSON value: a scanned number holds the exact value of its literal
    and a decoded [interface{}] number the exact value of its [float64]
    (see [iface_value]); objects keep their members in source order (a
    later duplicate key overwrites an earlier one in the map). *)
Inductive jvalue :=
  | JNull
  | JBool (b : bool)
  | JNumber (q : Q)
  | JString (s : string)
  | JArray (l : list jvalue)
  | JObject (kvs : list (string * jvalue)).

(** Outcome of scanning a value off a byte stream: a value and the rest,
    the end of the input reached inside the value, or a syntax error. *)
Inductive presult (A : Type) :=
  | POk (a : A) (rest : list ascii)
  | PEof
  | PSyntax.
Arguments POk {A} a rest.
Arguments PEof {A}.
Arguments PSyntax {A}.

(** The double quote character. *)
Definition dquote : ascii := "034"%char.

Definition is_ws (c : ascii) : bool :=
  Ascii.eqb c " " || Ascii.eqb c "009"%char || Ascii.eqb c "010"%char
  || Ascii.eqb c "013"%char.

Fixpoint skip_ws (s : list ascii) : list ascii :=
  match s with
  | c :: rest => if is_ws c then skip_ws rest else s
  | [] => []
  end.

Definition digit_value (c : ascii) : option Z :=
  let n := N_of_ascii c in
  if (48 <=? n)%N && (n <=? 57)%N then Some (Z.of_N n - 48) else None.

(** The maximal run of decimal digits: its value, its length, the rest. *)
Fixpoint digits (s : list ascii) (acc : Z) (k : nat) : Z * nat * list ascii :=
  match s with
  | c :: rest =>
      match digit_value c with
      | Some d => digits rest (acc * 10 + d) (S k)
      | None => (acc, k, s)
      end
  | [] => (acc, k, s)
  end.

(** At least one digit is required where the grammar asks for one. *)
Definition digits1 (s : list ascii) : presult (Z * nat) :=
  match s with
  | [] => PEof
  | c :: _ =>
      match digit_value c with
      | None => PSyntax
      | Some _ => let '(v, k, rest) := digits s 0 O in POk (v, k) rest
      end
  end.

Definition scale (num : Z) (e : Z) : Q :=
  if 0 <=? e then Qmake (num * 10 ^ e) 1 else Qmake num (Z.to_pos (10 ^ (- e))).

(** number = [-] int [frac] [exp] *)
Definition parse_number (s : list ascii) : presult jvalue :=
  let '(neg, s1) := match s with
                    | "-"%char :: r => (true, r)
                    | _ => (false, s)
                    end in
  let int_part :=
    match s1 with
    | "0"%char :: r => POk (0, O) r
    | _ => digits1 s1
    end in
  match int_part with
  | PEof => PEof
  | PSyntax => PSyntax
  | POk (iv, _) s2 =>
      let frac :=
        match s2 with
        | "."%char :: r => digits1 r
        | _ => POk (0, O) s2
        end in
      match frac with
      | PEof => PEof
      | PSyntax => PSyntax
      | POk (fv, fk) s3 =>
          let ex :=
            match s3 with
            | c :: r =>
                if Ascii.eqb c "e" || Ascii.eqb c "E" then
                  match r with
                  | "-"%char :: r' =>
                      match digits1 r' with
                      | POk (ev, _) r'' => POk (- ev) r''
                      | PEof => PEof | PSyntax => PSyntax
                      end
                  | "+"%char :: r' =>
                      match digits1 r' with
                      | POk (ev, _) r'' => POk ev r''
                      | PEof => PEof | PSyntax => PSyntax
                      end
                  | _ =>
                      match digits1 r with
                      | POk (ev, _) r'' => POk ev r''
                      | PEof => PEof | PSyntax => PSyntax
                      end
                  end
                else POk 0 s3
            | [] => POk 0 s3
            end in
          match ex with
          | PEof => PEof
          | PSyntax => PSyntax
          | POk ev s4 =>
              let mant := iv * 10 ^ Z.of_nat fk + fv in
              POk (JNumber (scale (if neg then - mant else mant) (ev - Z.of_nat fk))) s4
          end
      end
  end.

Definition hex_value (c : ascii) : option N :=
  let n := N_of_ascii c in
  if (48 <=? n)%N && (n <=? 57)%N then Some (n - 48)%N
  else if (97 <=? n)%N && (n <=? 102)%N then Some (n - 87)%N
  else if (65 <=? n)%N && (n <=? 70)%N then Some (n - 55)%N
  else None.

(** UTF-8 encoding of a [\uXXXX] escape (surrogate pairs are not
    combined in this model). *)
Definition utf8 (cp : N) : list ascii :=
  if (cp <? 128)%N then [byte cp]
  else if (cp <? 2048)%N then
    [byte (N.lor 192 (N.shiftr cp 6)); byte (N.lor 128 (N.land cp 63))]
  else
    [byte (N.lor 224 (N.shiftr cp 12));
     byte (N.lor 128 (N.land (N.shiftr cp 6) 63));
     byte (N.lor 128 (N.land cp 63))].

(** The characters of a string literal after its opening quote. *)
Fixpoint parse_chars (s : list ascii) : presult (list ascii) :=
  match s with
  | [] => PEof
  | c :: rest =>
      if Ascii.eqb c dquote then POk [] rest
      else if Ascii.eqb c "\" then
        match rest with
        | [] => PEof
        | e :: rest' =>
            let simple (x : ascii) :=
              match parse_chars rest' with
              | POk cs r => POk (x :: cs) r
              | PEof => PEof
              | PSyntax => PSyntax
              end in
            if Ascii.eqb e dquote then simple dquote
            else if Ascii.eqb e "\" then simple "\"%char
            else if Ascii.eqb e "/" then simple "/"%char
            else if Ascii.eqb e "b" then simple "008"%char
            else if Ascii.eqb e "f" then simple "012"%char
            else if Ascii.eqb e "n" then simple "010"%char
            else if Ascii.eqb e "r" then simple "013"%char
            else if Ascii.eqb e "t" then simple "009"%char
            else if Ascii.eqb e "u" then
              match rest' with
              | h1 :: h2 :: h3 :: h4 :: rest'' =>
                  match hex_value h1, hex_value h2, hex_value h3, hex_value h4 with
                  | Some a, Some b, Some c', Some d =>
                      match parse_chars rest'' with
                      | POk cs r =>
                          POk (utf8 (a * 4096 + b * 256 + c' * 16 + d)%N ++ cs) r
                      | PEof => PEof
                      | PSyntax => PSyntax
                      end
                  | _, _, _, _ => PSyntax
                  end
              | _ => if forallb (fun h => bool_decide (is_Some (hex_value h))) rest'
                     then PEof else PSyntax
              end
            else PSyntax
        end
      else if (N_of_ascii c <? 32)%N then PSyntax
      else match parse_chars rest with
           | POk cs r => POk (c :: cs) r
           | PEof => PEof
           | PSyntax => PSyntax
           end
  end.

Definition parse_string (s : list ascii) : presult string :=
  match parse_chars s with
  | POk cs r => POk (string_of_list_ascii cs) r
  | PEof => PEof
  | PSyntax => PSyntax
  end.

(** A literal keyword: [true], [false], [null]. *)
Fixpoint literal (kw s : list ascii) : presult unit :=
  match kw, s with
  | [], _ => POk tt s
  | _ :: _, [] => PEof
  | k :: kw', c :: s' => if Ascii.eqb k c then literal kw' s' else PSyntax
  end.

Definition pmap {A B} (f : A -> B) (r : presult A) : presult B :=
  match r with
  | POk a rest => POk (f a) rest
  | PEof => PEof
  | PSyntax => PSyntax
  end.

(** The scanner's [maxNestingDepth]: opening a 10001st nested array or
    object is a syntax error ("exceeded max depth"). *)
Definition maxNestingDepth : Z := 10000.

(** One JSON value, [depth] arrays and objects deep; [fuel] bounds the
    recursion (the input length is enough: every level consumes a
    bracket). *)
Fixpoint parse_value (fuel : nat) (depth : Z) (s : list ascii) : presult jvalue :=
  match fuel with
  | O => PSyntax
  | S f =>
      match skip_ws s with
      | [] => PEof
      | c :: rest =>
          if Ascii.eqb c "{" then
            if negb (depth <? maxNestingDepth) then PSyntax else
            match skip_ws rest with
            | [] => PEof
            | "}"%char :: r => POk (JObject []) r
            | s1 =>
                (fix members (g : nat) (s1 : list ascii) (acc : list (string * jvalue))
                   : presult jvalue :=
                   match g with
                   | O => PSyntax
                   | S g' =>
                       match skip_ws s1 with
                       | [] => PEof
                       | q :: r1 =>
                           if Ascii.eqb q dquote then
                             match parse_string r1 with
                             | PEof => PEof
                             | PSyntax => PSyntax
                             | POk k r2 =>
                                 match skip_ws r2 with
                                 | [] => PEof
                                 | ":"%char :: r3 =>
                                     match parse_value f (depth + 1) r3 with
                                     | PEof => PEof
                                     | PSyntax => PSyntax
                                     | POk v r4 =>
                                         match skip_ws r4 with
                                         | [] => PEof
                                         | ","%char :: r5 => members g' r5 (acc ++ [(k, v)])
                                         | "}"%char :: r5 => POk (JObject (acc ++ [(k, v)])) r5
                                         | _ => PSyntax
                                         end
                                     end
                                 | _ => PSyntax
                                 end
                             end
                           else PSyntax
                       end
                   end) f s1 []
            end
          else if Ascii.eqb c "[" then
            if negb (depth <? maxNestingDepth) then PSyntax else
            match skip_ws rest with
            | [] => PEof
            | "]"%char :: r => POk (JArray []) r
            | s1 =>
                (fix elems (g : nat) (s1 : list ascii) (acc : list jvalue) : presult jvalue :=
                   match g with
                   | O => PSyntax
                   | S g' =>
                       match parse_value f (depth + 1) s1 with
                       | PEof => PEof
                       | PSyntax => PSyntax
                       | POk v r4 =>
                           match skip_ws r4 with
                           | [] => PEof
                           | ","%char :: r5 => elems g' r5 (acc ++ [v])
                           | "]"%char :: r5 => POk (JArray (acc ++ [v])) r5
                           | _ => PSyntax
                           end
                       end
                   end) f s1 []
            end
          else if Ascii.eqb c dquote then pmap JString (parse_string rest)
          else if Ascii.eqb c "t" then pmap (fun _ => JBool true) (literal (list_ascii_of_string "rue") rest)
          else if Ascii.eqb c "f" then pmap (fun _ => JBool false) (literal (list_ascii_of_string "alse") rest)
          else if Ascii.eqb c "n" then pmap (fun _ => JNull) (literal (list_ascii_of_string "ull") rest)
          else if Ascii.eqb c "-" || bool_decide (is_Some (digit_value c)) then parse_number (c :: rest)
          else PSyntax
      end
  end.

(** The [interface{}] value Go builds from a scanned value
    ([valueInterface]): each number goes through [strconv.ParseFloat(s, 64)];
    a number out of the float64 range becomes nil and records an
    [UnmarshalTypeError] (the flag), and decoding goes on. *)
Fixpoint iface_value (v : jvalue) : jvalue * bool :=
  match v with
  | JNumber q =>
      match float64_of_Q q with
      | Some f => (JNumber f, false)
      | None => (JNull, true)
      end
  | JArray l =>
      let '(l', bad) :=
        (fix go (l : list jvalue) : list jvalue * bool :=
           match l with
           | [] => ([], false)
           | x :: xs =>
               let '(x', b1) := iface_value x in
               let '(xs', b2) := go xs in (x' :: xs', b1 || b2)
           end) l in
      (JArray l', bad)
  | JObject kvs =>
      let '(kvs', bad) :=
        (fix go (kvs : list (string * jvalue)) : list (string * jvalue) * bool :=
           match kvs with
           | [] => ([], false)
           | (k, x) :: rest =>
               let '(x', b1) := iface_value x in
               let '(rest', b2) := go rest in ((k, x') :: rest', b1 || b2)
           end) kvs in
      (JObject kvs', bad)
  | _ => (v, false)
  end.

(** A Go map built from an object: later members overwrite earlier ones,
    so a lookup finds the last member with that key. *)
Definition jmap := list (string * jvalue).

Definition map_lookup (k : string) (m : jmap) : option jvalue :=
  fold_left (fun acc kv => if String.eqb kv.1 k then Some kv.2 else acc) m None.

(** [json.Unmarshal(b, &m)] with [var m map[string]interface{}]: the whole
    input must be one value (trailing white space allowed); [null] leaves
    [m] nil (an empty map for lookups); a non-object value is a type error,
    and so is a member value holding a number out of the float64 range. *)
Definition json_unmarshal_map (b : list ascii) : error + jmap :=
  match parse_value (S (length b)) 0 b with
  | POk v rest =>
      if bool_decide (skip_ws rest = []) then
        match v with
        | JObject kvs =>
            match iface_value v with
            | (_, true) => inl (ErrJSON JTypeMismatch)
            | (JObject kvs', false) => inr kvs'
            | (_, false) => inr kvs
            end
        | JNull => inr []
        | _ => inl (ErrJSON JTypeMismatch)
        end
      else inl (ErrJSON JSyntax)
  | PEof => inl (ErrJSON JSyntax)   (* "unexpected end of JSON input" *)
  | PSyntax => inl (ErrJSON JSyntax)
  end.

(* ================================================================== *)
(** ** auth.JWTToken (jwt.go) *)

Record JWTToken := mkJWT { token : string; expiredAt : Z }.

(** A Go computation that may panic (here: a failed type assertion). *)
Inductive go_result (A : Type) :=
  | Ret (a : A)
  | Panic.
Arguments Ret {A} a.
Arguments Panic {A}.

(** Padding of the payload segment to a multiple of 4 characters. *)
Definition pad_payload (payload : string) : string :=
  let l := (String.length payload mod 4)%nat in
  if (0 <? l)%nat then (payload ++ repeat_eq (4 - l))%string else payload.

(** Base64url decoding of the padded payload, then [json.Unmarshal] into a
    [map[string]interface{}]. *)
Definition decode_payload (payload : string) : error + jmap :=
  match b64url_decode (pad_payload payload) with
  | None => inl (ErrWrap "decode jwt token error" ErrBase64)
  | Some b =>
      match json_unmarshal_map b with
      | inl err => inl (ErrWrap "unmarshal decode jwt token error" err)
      | inr m => inr m
      end
  end.

(** [SetExpireTime]: [error + JWTToken] is the returned error or the
    token with its updated [expiredAt]. *)
Definition SetExpireTime (t : JWTToken) : go_result (error + JWTToken) :=
  let parts := split dot (token t) in
  if negb (length parts =? 3)%nat then Ret (inl (ErrText "need jwt token"))
  else
    match decode_payload (nth 1 parts ""%string) with
    | inl err => Ret (inl err)
    | inr m =>
        match map_lookup "exp" m with
        | Some ts =>
            match ts with                      (* ts.(float64) *)
            | JNumber q => Ret (inr (mkJWT (token t) (float_to_int64 q)))
            | _ => Panic
            end
        | None => Ret (inr t)
        end
    end.

(** [NewJWTToken]: [None] is the nil [*JWTToken] returned with the error. *)
Definition NewJWTToken (tok : string) : go_result (error + JWTToken) :=
  match SetExpireTime (mkJWT tok 0) with
  | Ret (inl err) => Ret (inl (ErrWrap "new jwt token error" err))
  | Ret (inr t) => Ret (inr t)
  | Panic => Panic
  end.

(** [almostExpired] at the current Unix time [now]. *)
Definition almostExpired (now : Z) (t : JWTToken) : bool :=
  if expiredAt t =? 0 then true
  else wrap64 (now + 10) >? expiredAt t.

(** [Valid] on a possibly nil [*JWTToken]. *)
Definition Valid (now : Z) (t : option JWTToken) : bool :=
  match t with
  | None => false
  | Some t => negb (String.eqb (token t) "") && negb (almostExpired now t)
  end.

(* ================================================================== *)
(** ** Properties of JWTToken *)

Section JWTFacts.


Lemma wrap64_small (z : Z) : in_int64 z -> wrap64 z = z.
Proof.
  unfold wrap64, in_int64, int64_min, int64_max. intros H.
  rewrite Z.mod_small; lia.
Qed.


Lemma NewJWTToken_no_exp (tok : string) (m : jmap) :
  length (split dot tok) = 3%nat ->
  decode_payload (nth 1 (split dot tok) ""%string) = inr m ->
  map_lookup "exp" m = None ->
  NewJWTToken tok = Ret (inr (mkJWT tok 0)).
Proof.
  intros H3 Hd He. unfold NewJWTToken, SetExpireTime; simpl token.
  rewrite H3, Hd, He. reflexivity.
Qed.

Lemma Valid_zero_expiry (now : Z) (tok : string) :
  Valid now (Some (mkJWT tok 0)) = false.
Proof. unfold Valid, almostExpired; simpl. now rewrite andb_false_r. Qed.

End JWTFacts.




(** C4.  A token whose decoded payload object has no [exp] member is
    built, but is invalid at every current time; a string with fewer or
    more than three dot-separated segments fails construction with an
    error. *)
Theorem jwt_no_exp_or_bad_segments_never_valid :
  (forall (tok : string) (m : jmap),
      length (split dot tok) = 3%nat ->
      decode_payload (nth 1 (split dot tok) ""%string) = inr m ->
      map_lookup "exp" m = None ->
      exists t, NewJWTToken tok = Ret (inr t) /\ forall now, Valid now (Some t) = false) /\
  (forall tok : string,
      length (split dot tok) <> 3%nat ->
      exists e, NewJWTToken tok = Ret (inl e)).
Proof.
  split.
  - intros tok m H3 Hd He. exists (mkJWT tok 0).
    split; [now apply (NewJWTToken_no_exp tok m) | intros now; apply Valid_zero_expiry].
  - intros tok Hn. unfold NewJWTToken, SetExpireTime; simpl token.
    destruct (Nat.eqb_spec (length (split dot tok)) 3); [contradiction |].
    simpl. eexists. reflexivity.
Qed.

Lemma jwt_no_exp_or_bad_segments_never_valid_witness :
  (exists t, NewJWTToken "h.e30.s" = Ret (inr t) /\ forall now, Valid now (Some t) = false) /\
  (exists e, NewJWTToken "h.s" = Ret (inl e)).
Proof.
  split.
  - apply (proj1 jwt_no_exp_or_bad_segments_never_valid "h.e30.s" []).
    + reflexivity.
    + vm_compute. reflexivity.
    + reflexivity.
  - apply (proj2 jwt_no_exp_or_bad_segments_never_valid "h.s").
    discriminate.
Defined.

(** C9.  Construction is not total: a well-formed three-segment token
    whose payload is [{"exp":"x"}] makes the unchecked assertion
    [ts.(float64)] in [SetExpireTime] panic instead of returning an error. *)
Theorem NewJWTToken_exp_string_panics :
  NewJWTToken "h.eyJleHAiOiJ4In0.s" = Panic.
Proof. vm_compute. reflexivity. Qed.

(* ================================================================== *)
(** ** httpx.Client.Do (client.go) *)

(** A response body: the bytes it yields, then either a clean [io.EOF]
    ([None]) or a read error. *)
Record reader := mkReader { rdata : list ascii; rerr : option error }.

(** The part of an [*http.Response] that [Do] reads. *)
Record http_response := mkHttpResponse {
  StatusCode : Z;
  ReqMethod : string;          (* resp.Request.Method *)
  ReqURL : string;             (* resp.Request.URL, as printed by %v *)
  Body : reader
}.

(** [httpx.Response]: the embedded [*http.Response] and [ErrMessage]. *)
Record Response := mkResponse { resp : http_response; ErrMessage : string }.

Definition HasError (r : Response) : bool :=
  (400 <=? StatusCode (resp r)) && (StatusCode (resp r) <=? 599).

(** [Response.Error]: [fmt.Sprintf("%v %v: %d %v", ...)]. *)
Definition Response_Error (r : Response) : string :=
  ReqMethod (resp r) +:+ " " +:+ ReqURL (resp r) +:+ ": "
  +:+ pretty (StatusCode (resp r)) +:+ " " +:+ ErrMessage r.

(** The [*Response] returned as an [error] value. *)
Definition response_as_error (r : Response) : error :=
  ErrResponse (StatusCode (resp r)) (ReqMethod (resp r)) (ReqURL (resp r)) (ErrMessage r).

(** [err.Error()] for the errors whose text a claim is about. *)
Definition error_string (e : error) : option string :=
  match e with
  | ErrResponse st m u msg =>
      Some (m +:+ " " +:+ u +:+ ": " +:+ pretty st +:+ " " +:+ msg)
  | ErrText msg => Some msg
  | _ => None
  end.

(** [ioutil.ReadAll]: everything up to the end or the read error. *)
Definition ReadAll (r : reader) : list ascii * option error := (rdata r, rerr r).

(** An [io.Writer] sink: what it holds, and how many more bytes it
    accepts before failing with a short write ([None]: unbounded). *)
Record writer := mkWriter { wbuf : list ascii; wroom : option nat }.

(** [io.Copy(w, r)]: the sink after the copy, and the returned count and
    error. *)
Definition io_copy (w : writer) (r : reader) : writer * (nat * option error) :=
  let d := rdata r in
  match wroom w with
  | None => (mkWriter (wbuf w ++ d) None, (length d, rerr r))
  | Some k =>
      if (length d <=? k)%nat then
        (mkWriter (wbuf w ++ d) (Some (k - length d)%nat), (length d, rerr r))
      else (mkWriter (wbuf w ++ firstn k d) (Some O), (k, Some (ErrIO "short write")))
  end.

(** [json.NewDecoder(body)] reading one value ([readValue] and the
    scanner): a scanned value is returned even if more data follow; running out of data inside a
    value returns the read error, [io.EOF] when nothing but white space
    was read, [io.ErrUnexpectedEOF] otherwise. *)
Definition json_decode (r : reader) : error + jvalue :=
  let d := rdata r in
  match parse_value (S (length d)) 0 d with
  | POk v _ => inr v
  | PSyntax => inl (ErrJSON JSyntax)
  | PEof =>
      match rerr r with
      | Some e => inl e
      | None => if bool_decide (skip_ws d = []) then inl ErrEOF else inl ErrUnexpectedEOF
      end
  end.

(** The [v interface{}] argument of [Do]: nil, an [io.Writer], or a
    pointer to an [interface{}] that JSON decoding fills.  Pointers to
    typed Go values (structs, slices, typed maps), whose decoding also
    reports type mismatches, are not modelled: statements about [Do]'s
    decoding cover [*interface{}] targets only. *)
Inductive target :=
  | TNil
  | TWriter (w : writer)
  | TValue (slot : option jvalue).

(** An [interface{}] holding a decoded value: [null] is nil. *)
Definition iface_slot (x : jvalue) : option jvalue :=
  match x with JNull => None | _ => Some x end.

(** Storing a scanned value through the target ([d.value] on a
    [*interface{}]): the target gets the [interface{}] value, except that
    a top-level number out of the float64 range leaves it as it was; a
    range error is returned after the value was stored. *)
Definition decode_into (x : jvalue) (v : target) : target * option error :=
  match v with
  | TValue slot =>
      let '(x', bad) := iface_value x in
      let slot' := match x with
                   | JNumber _ => if bad then slot else iface_slot x'
                   | _ => iface_slot x'
                   end in
      (TValue slot', if bad then Some (ErrJSON JTypeMismatch) else None)
  | _ => (v, None)
  end.

(** [json.NewDecoder(body).Decode(v)]: the target afterwards and the
    returned error. *)
Definition Decode (body : reader) (v : target) : target * option error :=
  match json_decode body with
  | inl err => (v, Some err)
  | inr x => decode_into x v
  end.

(** What [c.httpClient.Do(req)] gives back. *)
Inductive client_result :=
  | CResp (r : http_response)
  | CErr (e : error).

(** [ctx] at the [select]: [Some c] when [ctx.Done()] is closed and
    [ctx.Err()] is [c]; [None] when it is not done.  [Do] returns the
    [*Response], the [error], and the target after the call. *)
Definition Do (ctx : option ctx_err) (sent : client_result) (v : target)
  : option Response * option error * target :=
  match v with
  | TNil => (None, Some (ErrText "v must not nil"), v)
  | _ =>
      match sent with
      | CErr err =>
          match ctx with
          | Some c => (None, Some (ErrWrap "httpx do error" (ErrCtx c)), v)
          | None => (None, Some (ErrWrap "httpx do error" err), v)
          end
      | CResp r =>
          let response := mkResponse r "" in
          if HasError response then
            match ReadAll (Body r) with
            | (_, Some err) => (None, Some (ErrWrap "httpx do error" err), v)
            | (body, None) =>
                let response := mkResponse r (string_of_list_ascii body) in
                (None, Some (response_as_error response), v)
            end
          else
            match v with
            | TWriter w =>
                let '(w', _) := io_copy w (Body r) in
                (Some response, None, TWriter w')
            | _ =>
                let '(v', err) := Decode (Body r) v in
                match err with
                | Some e =>
                    if is_EOF e then (Some response, None, v')
                    else (Some response, Some e, v')
                | None => (Some response, None, v')
                end
            end
      end
  end.

(* ================================================================== *)
(** ** Properties of Do *)

Section DoFacts.

Lemma Do_not_nil (ctx : option ctx_err) (sent : client_result) (v : target) :
  v <> TNil ->
  Do ctx sent v =
  match sent with
  | CErr err =>
      match ctx with
      | Some c => (None, Some (ErrWrap "httpx do error" (ErrCtx c)), v)
      | None => (None, Some (ErrWrap "httpx do error" err), v)
      end
  | CResp r =>
      if HasError (mkResponse r "") then
        match ReadAll (Body r) with
        | (_, Some err) => (None, Some (ErrWrap "httpx do error" err), v)
        | (body, None) =>
            (None, Some (response_as_error (mkResponse r (string_of_list_ascii body))), v)
        end
      else
        match v with
        | TWriter w => let '(w', _) := io_copy w (Body r) in
                       (Some (mkResponse r ""), None, TWriter w')
        | _ =>
            let '(v', err) := Decode (Body r) v in
            match err with
            | Some e => if is_EOF e then (Some (mkResponse r ""), None, v')
                        else (Some (mkResponse r ""), Some e, v')
            | None => (Some (mkResponse r ""), None, v')
            end
        end
  end.
Proof. destruct v; [contradiction | reflexivity | reflexivity]. Qed.

Lemma HasError_range (r : http_response) :
  HasError (mkResponse r "") = true <-> 400 <= StatusCode r <= 599.
Proof.
  unfold HasError; simpl. rewrite andb_true_iff, !Z.leb_le. reflexivity.
Qed.

End DoFacts.

(** C2 (as corrected).  For a response with status in [400, 599],
    [Do] returns no [*Response] and leaves the target as it was.  When
    the body is read without error, the error returned is the envelope,
    with [ErrMessage] set to the whole body, whose text is
    "METHOD URL: STATUS BODY"; when reading the body fails with [err],
    the error returned is the wrapped read error and no envelope. *)
Theorem Do_application_error (ctx : option ctx_err) (r : http_response) (v : target) :
  v <> TNil ->
  400 <= StatusCode r <= 599 ->
  match rerr (Body r) with
  | None =>
      let env := mkResponse r (string_of_list_ascii (rdata (Body r))) in
      Do ctx (CResp r) v = (None, Some (response_as_error env), v) /\
      error_string (response_as_error env) = Some (Response_Error env) /\
      Response_Error env =
        ReqMethod r +:+ " " +:+ ReqURL r +:+ ": " +:+ pretty (StatusCode r) +:+ " "
        +:+ string_of_list_ascii (rdata (Body r))
  | Some err =>
      Do ctx (CResp r) v = (None, Some (ErrWrap "httpx do error" err), v)
  end.
Proof.
  intros Hv Hs.
  rewrite Do_not_nil by exact Hv.
  apply HasError_range in Hs. rewrite Hs.
  unfold ReadAll. destruct (rerr (Body r)) as [err |].
  - reflexivity.
  - repeat split.
Qed.

(** Both branches, at a 404 read in full and at a 500 whose body read
    fails. *)
Lemma Do_application_error_witness :
  let r1 := mkHttpResponse 404 "GET" "http://h/x" (mkReader (list_ascii_of_string "not found") None) in
  let r2 := mkHttpResponse 500 "GET" "http://h/x"
              (mkReader (list_ascii_of_string "partial") (Some (ErrIO "connection reset"))) in
  TValue None <> TNil /\ 400 <= StatusCode r1 <= 599 /\ 400 <= StatusCode r2 <= 599 /\
  (let env := mkResponse r1 (string_of_list_ascii (rdata (Body r1))) in
   Do None (CResp r1) (TValue None) = (None, Some (response_as_error env), TValue None) /\
   error_string (response_as_error env) = Some (Response_Error env) /\
   Response_Error env =
     ReqMethod r1 +:+ " " +:+ ReqURL r1 +:+ ": " +:+ pretty (StatusCode r1) +:+ " "
     +:+ string_of_list_ascii (rdata (Body r1))) /\
  Do None (CResp r2) (TValue None)
    = (None, Some (ErrWrap "httpx do error" (ErrIO "connection reset")), TValue None).
Proof.
  intros r1 r2.
  split; [discriminate | split; [simpl; lia | split; [simpl; lia | split]]].
  - exact (Do_application_error None r1 (TValue None) ltac:(discriminate) ltac:(simpl; lia)).
  - exact (Do_application_error None r2 (TValue None) ltac:(discriminate) ltac:(simpl; lia)).
Defined.

(** C2: the claim says every 400-599 response is returned as the
    envelope; when reading its body fails, [Do] returns the wrapped read
    error and no envelope. *)
Lemma Do_application_error_counterexample :
  Do None (CResp (mkHttpResponse 500 "GET" "http://h/x"
                    (mkReader (list_ascii_of_string "partial") (Some (ErrIO "connection reset")))))
     (TValue None)
  = (None, Some (ErrWrap "httpx do error" (ErrIO "connection reset")), TValue None).
Proof. reflexivity. Qed.

(** C5.  On a transport error (no response), [Do] returns no response
    and the wrapped [ctx.Err()] when the context is already done, the
    wrapped transport error otherwise. *)
Theorem Do_transport_error (ctx : option ctx_err) (err : error) (v : target) :
  v <> TNil ->
  Do ctx (CErr err) v =
  (None,
   Some (ErrWrap "httpx do error"
           match ctx with Some c => ErrCtx c | None => err end),
   v).
Proof. intros Hv. rewrite Do_not_nil by exact Hv. destruct ctx; reflexivity. Qed.

Lemma Do_transport_error_witness :
  TValue None <> TNil /\
  Do (Some DeadlineExceeded) (CErr (ErrIO "dial tcp: i/o timeout")) (TValue None) =
  (None, Some (ErrWrap "httpx do error" (ErrCtx DeadlineExceeded)), TValue None).
Proof.
  split; [discriminate |].
  apply (Do_transport_error (Some DeadlineExceeded) (ErrIO "dial tcp: i/o timeout")).
  discriminate.
Defined.

(** C7.  A success response with an empty body (clean end of stream)
    decoded into a JSON target: no error, the [*Response] is returned,
    and the target keeps its prior value. *)
Theorem Do_empty_body_ok (ctx : option ctx_err) (r : http_response) (slot : option jvalue) :
  ~ (400 <= StatusCode r <= 599) ->
  Body r = mkReader [] None ->
  Do ctx (CResp r) (TValue slot) = (Some (mkResponse r ""), None, TValue slot).
Proof.
  intros Hs Hb.
  rewrite Do_not_nil by discriminate.
  destruct (HasError (mkResponse r "")) eqn:He.
  - apply HasError_range in He. contradiction.
  - unfold Decode, json_decode. rewrite Hb. reflexivity.
Qed.

Lemma Do_empty_body_ok_witness :
  ~ (400 <= StatusCode (mkHttpResponse 204 "DELETE" "http://h/x" (mkReader [] None)) <= 599) /\
  Do None (CResp (mkHttpResponse 204 "DELETE" "http://h/x" (mkReader [] None))) (TValue None) =
  (Some (mkResponse (mkHttpResponse 204 "DELETE" "http://h/x" (mkReader [] None)) ""), None,
   TValue None).
Proof.
  split; [simpl; lia |].
  apply (Do_empty_body_ok None (mkHttpResponse 204 "DELETE" "http://h/x" (mkReader [] None)) None).
  - simpl; lia.
  - reflexivity.
Defined.

(** C10.  With an [io.Writer] target and a success status, [Do] returns
    the [*Response] and a nil error whatever [io.Copy] reports: the
    sink holds what was copied, and a failed or truncated copy is not
    visible in the result. *)
Theorem Do_writer_ignores_copy_error (ctx : option ctx_err) (r : http_response) (w : writer) :
  ~ (400 <= StatusCode r <= 599) ->
  Do ctx (CResp r) (TWriter w) =
  (Some (mkResponse r ""), None, TWriter (fst (io_copy w (Body r)))).
Proof.
  intros Hs.
  rewrite Do_not_nil by discriminate.
  destruct (HasError (mkResponse r "")) eqn:He.
  - apply HasError_range in He. contradiction.
  - destruct (io_copy w (Body r)) as [w' res]. reflexivity.
Qed.

Lemma Do_writer_ignores_copy_error_witness :
  let r := mkHttpResponse 200 "GET" "http://h/f"
             (mkReader (list_ascii_of_string "abcdef") (Some (ErrIO "unexpected EOF"))) in
  ~ (400 <= StatusCode r <= 599) /\
  snd (snd (io_copy (mkWriter [] (Some 3%nat)) (Body r))) = Some (ErrIO "short write") /\
  Do None (CResp r) (TWriter (mkWriter [] (Some 3%nat))) =
  (Some (mkResponse r ""), None, TWriter (fst (io_copy (mkWriter [] (Some 3%nat)) (Body r)))).
Proof.
  intros r. split; [simpl; lia | split; [reflexivity |]].
  apply (Do_writer_ignores_copy_error None r (mkWriter [] (Some 3%nat))).
  simpl; lia.
Defined.

(* ================================================================== *)
(** ** httpx.Client.NewRequest and NewMultiPartRequest (client.go) *)

(** An outgoing request as built by the client: header values keyed by
    canonical name, in insertion order. *)
Record http_request := mkHttpRequest {
  Method : string;
  URL : string;
  Header : list (string * list string);
  BodyBytes : option (list ascii)
}.

(** [http.Header.Set] with a canonical key: the key's values become [[v]]. *)
Fixpoint header_set (k v : string) (h : list (string * list string))
  : list (string * list string) :=
  match h with
  | [] => [(k, [v])]
  | (k', vs) :: h' => if String.eqb k' k then (k, [v]) :: h' else (k', vs) :: header_set k v h'
  end.

Section Build.

(** The [net/url], [encoding/json] and [net/http] operations the client
    calls, as parameters: the theorems hold for any of their behaviours. *)
Variable url_t : Type.
Variable url_parse_ref : url_t -> string -> error + url_t.     (* url.URL.Parse *)
Variable url_set_params : url_t -> list (string * string) -> url_t.
  (* q := u.Query(); q.Set(k, v) for each pair; u.RawQuery = q.Encode() *)
Variable url_String : url_t -> string.                          (* u.String() *)
Variable body_t : Type.
Variable json_encode : body_t -> error + list ascii.           (* json.NewEncoder(buf).Encode *)
Variable http_NewRequest : string -> string -> option (list ascii) -> error + http_request.

Record Client := mkClient { BaseURL : url_t; UserAgent : string }.

(** [strings.HasPrefix(urlStr, "/")] *)
Definition has_slash_prefix (s : string) : bool := String.prefix "/" s.

Definition NewRequest (c : Client) (method urlStr : string)
    (params : option (list (string * string))) (body : option body_t)
  : error + http_request :=
  if negb (has_slash_prefix urlStr) then inl (ErrSlash "httpx new request error" urlStr)
  else
    match url_parse_ref (BaseURL c) urlStr with
    | inl err => inl (ErrWrap "httpx new request error" err)
    | inr u =>
        let u := match params with Some ps => url_set_params u ps | None => u end in
        let buf := match body with
                   | Some b => match json_encode b with
                               | inl err => inl err
                               | inr bs => inr (Some bs)
                               end
                   | None => inr None
                   end in
        match buf with
        | inl err => inl (ErrWrap "httpx new request error" err)
        | inr buf =>
            match http_NewRequest method (url_String u) buf with
            | inl err => inl (ErrWrap "httpx new request error" err)
            | inr req =>
                let h := Header req in
                let h := match body with
                         | Some _ => header_set "Content-Type" "application/json" h
                         | None => h
                         end in
                let h := header_set "Accept" "application/json" h in
                let h := header_set "User-Agent" (UserAgent c) h in
                inr (mkHttpRequest (Method req) (URL req) h (BodyBytes req))
            end
        end
    end.

(** [body io.Reader] is [None] when nil. *)
Definition NewMultiPartRequest (c : Client) (method urlStr : string)
    (body : option (list ascii)) (contentType : string) : error + http_request :=
  match body with
  | None => inl (ErrText "httpx new multi part request error: expected not nil body")
  | Some _ =>
      if negb (has_slash_prefix urlStr) then
        inl (ErrSlash "httpx new multi part request error" urlStr)
      else
        match url_parse_ref (BaseURL c) urlStr with
        | inl err => inl (ErrWrap "httpx new multi part request error" err)
        | inr u =>
            match http_NewRequest method (url_String u) body with
            | inl err => inl (ErrWrap "httpx new multi part request error" err)
            | inr req =>
                let h := header_set "Content-Type" contentType (Header req) in
                let h := header_set "Accept" "application/json" h in
                let h := header_set "User-Agent" (UserAgent c) h in
                inr (mkHttpRequest (Method req) (URL req) h (BodyBytes req))
            end
        end
  end.

End Build.

(** C6.  For a path without a leading '/', both constructors fail with a
    validation error (for the multipart one, the nil-body check comes
    first) whatever the URL resolver, query encoder, JSON encoder and
    [http.NewRequest] do: the result does not depend on the URL
    resolution, which is never consulted. *)
Theorem build_requires_slash
    (url_t : Type) (url_parse_ref : url_t -> string -> error + url_t)
    (url_set_params : url_t -> list (string * string) -> url_t)
    (url_String : url_t -> string) (body_t : Type)
    (json_encode : body_t -> error + list ascii)
    (http_NewRequest : string -> string -> option (list ascii) -> error + http_request)
    (c : Client url_t) (method urlStr : string)
    (params : option (list (string * string))) (body : option body_t)
    (mbody : option (list ascii)) (contentType : string) :
  has_slash_prefix urlStr = false ->
  NewRequest url_t url_parse_ref url_set_params url_String body_t json_encode
    http_NewRequest c method urlStr params body
  = inl (ErrSlash "httpx new request error" urlStr) /\
  NewMultiPartRequest url_t url_parse_ref url_String http_NewRequest c method urlStr
    mbody contentType
  = inl (match mbody with
         | None => ErrText "httpx new multi part request error: expected not nil body"
         | Some _ => ErrSlash "httpx new multi part request error" urlStr
         end).
Proof.
  intros Hp. unfold NewRequest, NewMultiPartRequest. rewrite Hp. simpl.
  split; [reflexivity | destruct mbody; reflexivity].
Qed.

Lemma build_requires_slash_witness :
  has_slash_prefix "users" = false /\
  NewRequest string (fun _ _ => inl (ErrText "unused")) (fun u _ => u) (fun u => u)
    unit (fun _ => inr []) (fun m u b => inr (mkHttpRequest m u [] b))
    (mkClient string "https://api.example.com" "httpx") "GET" "users" None None
  = inl (ErrSlash "httpx new request error" "users") /\
  NewMultiPartRequest string (fun _ _ => inl (ErrText "unused")) (fun u => u)
    (fun m u b => inr (mkHttpRequest m u [] b))
    (mkClient string "https://api.example.com" "httpx") "POST" "users"
    (Some []) "multipart/form-data"
  = inl (ErrSlash "httpx new multi part request error" "users").
Proof.
  split; [reflexivity |].
  apply (build_requires_slash string (fun _ _ => inl (ErrText "unused")) (fun u _ => u)
           (fun u => u) unit (fun _ => inr []) (fun m u b => inr (mkHttpRequest m u [] b))
           (mkClient string "https://api.example.com" "httpx") "GET" "users" None None
           (Some []) "multipart/form-data").
  reflexivity.
Defined.

(* ================================================================== *)
(** ** The Go heap seen by auth.TokenAuthTransport (transport.go) *)

Module Heap.

Abbreviation loc := nat (only parsing).

(** The fields of [http.Request] the transport touches; the pointer
    fields ([URL], [Body]) are shared by a shallow copy. *)
Record request := mkReq {
  rMethod : string;
  rURL : option loc;
  rHeader : option loc;          (* http.Header, a map: nil or a reference *)
  rBody : option loc;
  rHost : string
}.

(** Heap cells: a request struct, a header map (key to [[]string] slice,
    a slice being nil or a reference to its backing array), a backing
    array, or an object the transport never looks into. *)
Inductive obj :=
  | OReq (r : request)
  | OHeader (h : list (string * option loc))
  | OArray (xs : list string)
  | OOpaque.

Abbreviation store := (list obj) (only parsing).

Definition alloc (s : store) (o : obj) : loc * store := (length s, s ++ [o]).

Definition write (s : store) (l : loc) (o : obj) : store := <[l := o]> s.

(** Map assignment [m[k] = v] (the key is canonical). *)
Fixpoint assoc_set {A} (k : string) (v : A) (m : list (string * A)) : list (string * A) :=
  match m with
  | [] => [(k, v)]
  | (k', v') :: m' => if String.eqb k' k then (k, v) :: m' else (k', v') :: assoc_set k v m'
  end.

Definition slice_view (s : store) (sl : option loc) : list string :=
  match sl with
  | None => []
  | Some a => match s !! a with Some (OArray xs) => xs | _ => [] end
  end.

(** [append([]string(nil), sl...)]: nil for an empty slice, otherwise a
    new backing array holding the same strings. *)
Definition copy_slice (s : store) (sl : option loc) : option loc * store :=
  match slice_view s sl with
  | [] => (None, s)
  | xs => let '(a, s') := alloc s (OArray xs) in (Some a, s')
  end.

(** [for k, s := range r.Header { r2.Header[k] = append([]string(nil), s...) }]
    ([acc] is the map at [hl2]; the iteration order does not matter for
    the result and is taken as the list order). *)
Fixpoint copy_header (s : store) (hl2 : loc) (es acc : list (string * option loc)) : store :=
  match es with
  | [] => s
  | (k, sl) :: es' =>
      let '(sl', s1) := copy_slice s sl in
      let acc' := assoc_set k sl' acc in
      copy_header (write s1 hl2 (OHeader acc')) hl2 es' acc'
  end.

(** Ranging over a header map (a nil map has no entries). *)
Definition header_entries (s : store) (hl : option loc) : go_result (list (string * option loc)) :=
  match hl with
  | None => Ret []
  | Some l => match s !! l with Some (OHeader h) => Ret h | _ => Panic end
  end.

(** [cloneRequest(r)]: the new request's location. *)
Definition cloneRequest (s : store) (r : loc) : go_result (store * loc) :=
  match s !! r with
  | Some (OReq rq) =>
      let '(r2, s1) := alloc s (OReq rq) in                      (* *r2 = *r *)
      match header_entries s1 (rHeader rq) with
      | Panic => Panic
      | Ret es =>
          let '(hl2, s2) := alloc s1 (OHeader []) in            (* make(http.Header, n) *)
          let s3 := write s2 r2 (OReq (mkReq (rMethod rq) (rURL rq) (Some hl2)
                                              (rBody rq) (rHost rq))) in
          Ret (copy_header s3 hl2 es [], r2)
      end
  | _ => Panic                                                  (* nil *http.Request *)
  end.

(** [http.Header.Set(k, v)] with a canonical key: [h[k] = []string{v}];
    assigning into a nil map panics. *)
Definition header_Set (s : store) (hl : option loc) (k v : string) : go_result store :=
  match hl with
  | None => Panic
  | Some l =>
      match s !! l with
      | Some (OHeader h) =>
          let '(a, s1) := alloc s (OArray [v]) in
          Ret (write s1 l (OHeader (assoc_set k (Some a) h)))
      | _ => Panic
      end
  end.

(** [JWTToken.SetAuthorization(req)] *)
Definition SetAuthorization (t : JWTToken) (s : store) (r : loc) : go_result store :=
  match s !! r with
  | Some (OReq rq) => header_Set s (rHeader rq) "Authorization" ("Token " +:+ token t)
  | _ => Panic
  end.

(** What [t.Source] gives: nil source, an error, or a token. *)
Definition source := option (error + JWTToken).

(** [RoundTrip] up to the delegation [t.transport().RoundTrip(req2)]:
    either an error, or the request handed to the underlying transport. *)
Inductive rt_outcome :=
  | RTErr (e : error)
  | RTSend (req2 : loc).

Definition RoundTrip (src : source) (s : store) (r : loc) : go_result (store * rt_outcome) :=
  match cloneRequest s r with
  | Panic => Panic
  | Ret (s1, r2) =>
      match src with
      | None => Ret (s1, RTErr (ErrText "auth: Transport's Source is nil"))
      | Some (inl err) => Ret (s1, RTErr (ErrWrap "roundtrip error" err))
      | Some (inr tok) =>
          match SetAuthorization tok s1 r2 with
          | Panic => Panic
          | Ret s2 => Ret (s2, RTSend r2)
          end
      end
  end.

(** What a request looks like to its user: its scalar fields, the shared
    pointers, and the header contents. *)
Record req_view := mkView {
  vMethod : string;
  vURL : option loc;
  vHeader : list (string * list string);
  vBody : option loc;
  vHost : string
}.

Definition header_view (s : store) (hl : option loc) : list (string * list string) :=
  match hl with
  | None => []
  | Some l =>
      match s !! l with
      | Some (OHeader h) => map (fun e => (e.1, slice_view s e.2)) h
      | _ => []
      end
  end.

Definition request_view (s : store) (r : loc) : option req_view :=
  match s !! r with
  | Some (OReq rq) =>
      Some (mkView (rMethod rq) (rURL rq) (header_view s (rHeader rq)) (rBody rq) (rHost rq))
  | _ => None
  end.

(** The view of a request after [Header.Set(k, v)]. *)
Definition view_set (k v : string) (w : req_view) : req_view :=
  mkView (vMethod w) (vURL w) (assoc_set k [v] (vHeader w)) (vBody w) (vHost w).

(** Well-typed heap around a request: its header is nil or a map with
    distinct keys whose slices are nil or reference arrays. *)
Definition slice_typed (s : store) (sl : option loc) : Prop :=
  match sl with
  | None => True
  | Some a => exists xs, s !! a = Some (OArray xs)
  end.

Definition header_typed (s : store) (hl : option loc) : Prop :=
  match hl with
  | None => True
  | Some l => exists h, s !! l = Some (OHeader h) /\ NoDup (map fst h) /\
                        Forall (fun e => slice_typed s e.2) h
  end.

Definition wf_req (s : store) (r : loc) : Prop :=
  exists rq, s !! r = Some (OReq rq) /\ header_typed s (rHeader rq).

End Heap.

(* ================================================================== *)
(** ** Heap frame lemmas *)

Module HeapFacts.
Import Heap.

(** [s'] leaves every cell of [s] but [x] as it was. *)
Definition frame_except (x : loc) (s s' : store) : Prop :=
  (length s <= length s')%nat /\
  forall l, (l < length s)%nat -> l <> x -> s' !! l = s !! l.

(** [s'] leaves every cell of [s] as it was. *)
Definition frame (s s' : store) : Prop :=
  (length s <= length s')%nat /\ forall l, (l < length s)%nat -> s' !! l = s !! l.

(** Backing arrays are never overwritten. *)
Definition arrays_stable (s s' : store) : Prop :=
  forall a xs, s !! a = Some (OArray xs) -> s' !! a = Some (OArray xs).

Definition slice_fresh (n : nat) (sl : option loc) : Prop :=
  match sl with None => True | Some a => (n <= a)%nat end.

Lemma alloc_old (s : store) (o : obj) (l : loc) :
  (l < length s)%nat -> (s ++ [o]) !! l = s !! l.
Proof. apply lookup_app_l. Qed.

Lemma alloc_new (s : store) (o : obj) : (s ++ [o]) !! length s = Some o.
Proof. by apply list_lookup_middle. Qed.

Lemma length_alloc (s : store) (o : obj) : length (s ++ [o]) = S (length s).
Proof. rewrite length_app. simpl. lia. Qed.

Lemma length_write (s : store) (l : loc) (o : obj) : length (write s l o) = length s.
Proof. apply length_insert. Qed.

Lemma write_ne (s : store) (l l' : loc) (o : obj) :
  l <> l' -> write s l o !! l' = s !! l'.
Proof. apply list_lookup_insert_ne. Qed.

Lemma write_eq (s : store) (l : loc) (o : obj) :
  (l < length s)%nat -> write s l o !! l = Some o.
Proof. apply list_lookup_insert_eq. Qed.

Lemma stable_refl (s : store) : arrays_stable s s.
Proof. by intros ???. Qed.

Lemma stable_trans (s1 s2 s3 : store) :
  arrays_stable s1 s2 -> arrays_stable s2 s3 -> arrays_stable s1 s3.
Proof. intros H1 H2 a xs Ha. by apply H2, H1. Qed.

Lemma stable_alloc (s : store) (o : obj) : arrays_stable s (s ++ [o]).
Proof. intros a xs Ha. by apply lookup_app_l_Some. Qed.

Lemma stable_write (s : store) (l : loc) (o : obj) :
  (forall xs, s !! l <> Some (OArray xs)) -> arrays_stable s (write s l o).
Proof.
  intros Hl a xs Ha. rewrite write_ne; [exact Ha |].
  intros ->. by apply (Hl xs).
Qed.

Lemma slice_stable (s s' : store) (sl : option loc) :
  arrays_stable s s' -> slice_typed s sl ->
  slice_view s' sl = slice_view s sl /\ slice_typed s' sl.
Proof.
  intros Hs. destruct sl as [a |]; unfold slice_view, slice_typed; [| done].
  intros [xs Ha]. rewrite (Hs _ _ Ha), Ha. split; [done | by exists xs].
Qed.

Lemma Forall_slices_stable (s s' : store) (h : list (string * option loc)) :
  arrays_stable s s' -> Forall (fun e => slice_typed s e.2) h ->
  Forall (fun e => slice_typed s' e.2) h /\
  map (fun e => (e.1, slice_view s' e.2)) h = map (fun e => (e.1, slice_view s e.2)) h.
Proof.
  intros Hs. induction 1 as [| e h He _ [IH1 IH2]]; [done |].
  destruct (slice_stable s s' e.2 Hs He) as [Hv Ht].
  split; [by constructor |]. simpl. by rewrite Hv, IH2.
Qed.

Lemma frame_refl (s : store) : frame s s.
Proof. split; [lia | done]. Qed.

Lemma frame_trans (s1 s2 s3 : store) : frame s1 s2 -> frame s2 s3 -> frame s1 s3.
Proof.
  intros [L1 H1] [L2 H2]. split; [lia |].
  intros l Hl. rewrite H2 by lia. by apply H1.
Qed.

Lemma frame_alloc (s : store) (o : obj) : frame s (s ++ [o]).
Proof. split; [rewrite length_alloc; lia | apply alloc_old]. Qed.

Lemma frame_except_trans (x : loc) (s1 s2 s3 : store) :
  frame_except x s1 s2 -> frame_except x s2 s3 -> frame_except x s1 s3.
Proof.
  intros [L1 H1] [L2 H2]. split; [lia |].
  intros l Hl Hx. rewrite H2 by lia. by apply H1.
Qed.

Lemma frame_except_of_frame (x : loc) (s s' : store) : frame s s' -> frame_except x s s'.
Proof. intros [L H]. split; [lia | intros l Hl _; by apply H]. Qed.

Lemma frame_except_write (s : store) (l : loc) (o : obj) : frame_except l s (write s l o).
Proof.
  split; [rewrite length_write; lia |].
  intros l' _ Hne. apply write_ne. congruence.
Qed.

(** A frame-preserving step leaves the view of an old request as it was. *)
Lemma header_view_frame (s s' : store) (hl : option loc) :
  frame s s' -> header_typed s hl -> header_view s' hl = header_view s hl.
Proof.
  intros [L H]. destruct hl as [l |]; unfold header_view, header_typed; [| done].
  intros (h & Hl & _ & Ht).
  rewrite (H l (lookup_lt_Some _ _ _ Hl)), Hl.
  apply map_ext_in. intros [k sl] Hin. simpl. f_equal.
  rewrite List.Forall_forall in Ht. specialize (Ht _ Hin). unfold slice_typed in Ht.
  destruct sl as [a |]; unfold slice_view; [| done].
  destruct Ht as [xs Ha]. by rewrite (H a (lookup_lt_Some _ _ _ Ha)).
Qed.

Lemma request_view_frame (s s' : store) (r : loc) :
  frame s s' -> wf_req s r -> request_view s' r = request_view s r.
Proof.
  intros Hf (rq & Hr & Ht). unfold request_view.
  rewrite (proj2 Hf r (lookup_lt_Some _ _ _ Hr)), Hr.
  by rewrite (header_view_frame s s' _ Hf Ht).
Qed.

Lemma wf_req_frame (s s' : store) (r : loc) :
  frame s s' -> wf_req s r -> wf_req s' r.
Proof.
  intros [L H] (rq & Hr & Ht). exists rq.
  rewrite (H r (lookup_lt_Some _ _ _ Hr)). split; [exact Hr |].
  destruct (rHeader rq) as [l |]; simpl in *; [| done].
  destruct Ht as (h & Hl & Hnd & Hs). exists h.
  rewrite (H l (lookup_lt_Some _ _ _ Hl)). split_and!; [exact Hl | exact Hnd |].
  eapply Forall_impl; [exact Hs |]. intros [k [a |]]; simpl; [| done].
  intros [xs Ha]. exists xs. by rewrite (H a (lookup_lt_Some _ _ _ Ha)).
Qed.

Lemma assoc_set_map {A B} (f : A -> B) (k : string) (v : A) (m : list (string * A)) :
  map (fun e => (e.1, f e.2)) (assoc_set k v m) = assoc_set k (f v) (map (fun e => (e.1, f e.2)) m).
Proof.
  induction m as [| [k' v'] m IH]; simpl; [done |].
  destruct (String.eqb k' k); simpl; [done | by rewrite IH].
Qed.

Lemma assoc_set_fresh {A} (k : string) (v : A) (m : list (string * A)) :
  k ∉ map fst m -> assoc_set k v m = m ++ [(k, v)].
Proof.
  induction m as [| [k' v'] m IH]; simpl; [done |].
  intros Hn. rewrite not_elem_of_cons in Hn. destruct Hn as [Hne Hn].
  destruct (String.eqb_spec k' k); [congruence |]. by rewrite IH.
Qed.

Lemma assoc_set_idem {A} (k : string) (v : A) (m : list (string * A)) :
  assoc_set k v (assoc_set k v m) = assoc_set k v m.
Proof.
  induction m as [| [k' v'] m IH]; simpl.
  - by rewrite String.eqb_refl.
  - destruct (String.eqb k' k) eqn:E; simpl.
    + by rewrite String.eqb_refl.
    + by rewrite E, IH.
Qed.

Lemma Forall_assoc_set {A} (P : A -> Prop) (k : string) (v : A) (m : list (string * A)) :
  P v -> Forall (fun e => P e.2) m -> Forall (fun e => P e.2) (assoc_set k v m).
Proof.
  intros Hv. induction 1 as [| [k' v'] m Hh Hm IH]; simpl; [by repeat constructor |].
  destruct (String.eqb k' k); by constructor.
Qed.

(** Inserting distinct keys one by one appends them. *)
Lemma fold_assoc_set_distinct {A} (vs L0 : list (string * A)) :
  NoDup (map fst L0 ++ map fst vs) ->
  fold_left (fun L kv => assoc_set kv.1 kv.2 L) vs L0 = L0 ++ vs.
Proof.
  revert L0. induction vs as [| [k v] vs IH]; intros L0 Hnd; simpl.
  - by rewrite app_nil_r.
  - rewrite assoc_set_fresh.
    + rewrite IH; [by rewrite <- app_assoc |].
      rewrite map_app, <- app_assoc. exact Hnd.
    + simpl in Hnd. apply NoDup_app in Hnd as (_ & Hd & _).
      intros Hin. apply (Hd k Hin). by left.
Qed.

Lemma slice_fresh_mono (n m : nat) (sl : option loc) :
  (n <= m)%nat -> slice_fresh m sl -> slice_fresh n sl.
Proof. destruct sl; simpl; lia. Qed.

Lemma copy_slice_spec (s : store) (sl sl' : option loc) (s' : store) :
  copy_slice s sl = (sl', s') ->
  frame s s' /\ arrays_stable s s' /\ slice_typed s' sl' /\
  slice_fresh (length s) sl' /\ slice_view s' sl' = slice_view s sl.
Proof.
  unfold copy_slice. destruct (slice_view s sl) as [| x xs] eqn:E.
  - intros [= <- <-]. split_and!; [apply frame_refl | apply stable_refl | done | done | done].
  - unfold alloc. intros [= <- <-].
    split_and!; [apply frame_alloc | apply stable_alloc | | simpl; lia |].
    + exists (x :: xs). apply alloc_new.
    + unfold slice_view. by rewrite alloc_new.
Qed.

Definition sview (s : store) : string * option loc -> string * list string :=
  fun e => (e.1, slice_view s e.2).

Lemma copy_header_spec (n : nat) (es : list (string * option loc)) :
  forall (s : store) (hl2 : loc) (acc : list (string * option loc)),
  s !! hl2 = Some (OHeader acc) ->
  (n <= length s)%nat ->
  Forall (fun e => slice_typed s e.2) acc ->
  Forall (fun e => slice_fresh n e.2) acc ->
  Forall (fun e => slice_typed s e.2) es ->
  frame_except hl2 s (copy_header s hl2 es acc) /\
  arrays_stable s (copy_header s hl2 es acc) /\
  exists acc', copy_header s hl2 es acc !! hl2 = Some (OHeader acc') /\
    Forall (fun e => slice_typed (copy_header s hl2 es acc) e.2) acc' /\
    Forall (fun e => slice_fresh n e.2) acc' /\
    map (sview (copy_header s hl2 es acc)) acc' =
      fold_left (fun L kv => assoc_set kv.1 kv.2 L) (map (sview s) es) (map (sview s) acc).
Proof.
  induction es as [| [k sl] es IH]; intros s hl2 acc Hh Hn Hta Hfa Hte; simpl.
  - split_and!; [apply frame_except_of_frame, frame_refl | apply stable_refl |].
    by exists acc.
  - destruct (copy_slice s sl) as [sl' s1] eqn:Ec.
    destruct (copy_slice_spec s sl sl' s1 Ec) as ([L1 F1] & S1 & T1 & Fr1 & V1).
    apply Forall_cons in Hte as [Htk Hte].
    pose proof (lookup_lt_Some _ _ _ Hh) as Hlt.
    assert (Hh1 : s1 !! hl2 = Some (OHeader acc)) by (rewrite F1 by lia; exact Hh).
    set (acc' := assoc_set k sl' acc).
    set (s2 := write s1 hl2 (OHeader acc')).
    assert (S2 : arrays_stable s1 s2) by (apply stable_write; rewrite Hh1; discriminate).
    assert (Hh2 : s2 !! hl2 = Some (OHeader acc')) by (apply write_eq; lia).
    destruct (Forall_slices_stable s s1 acc S1 Hta) as [Ta1 Va1].
    destruct (Forall_slices_stable s1 s2 acc S2 Ta1) as [Ta2 Va2].
    destruct (slice_stable s1 s2 sl' S2 T1) as [V2 T2].
    destruct (Forall_slices_stable s s2 es (stable_trans _ _ _ S1 S2) Hte) as [Te2 Ve2].
    assert (Tacc : Forall (fun e => slice_typed s2 e.2) acc') by (by apply Forall_assoc_set).
    assert (Facc : Forall (fun e => slice_fresh n e.2) acc').
    { apply Forall_assoc_set; [| done]. eapply slice_fresh_mono; [exact Hn | exact Fr1]. }
    destruct (IH s2 hl2 acc' Hh2 ltac:(unfold s2; rewrite length_write; lia) Tacc Facc Te2)
      as (FE & ST & acc'' & Hh3 & T3 & F3 & V3).
    split_and!.
    + eapply frame_except_trans; [| exact FE].
      eapply frame_except_trans; [apply frame_except_of_frame; by split |].
      apply frame_except_write.
    + eapply stable_trans; [exact S1 |]. eapply stable_trans; [exact S2 | exact ST].
    + exists acc''. split_and!; [exact Hh3 | exact T3 | exact F3 |].
      rewrite V3. unfold sview in *. rewrite Ve2. f_equal.
      unfold acc'. rewrite (assoc_set_map (slice_view s2)).
      simpl. rewrite V2, V1, Va2, Va1. done.
Qed.

Lemma header_entries_typed (s : store) (o : obj) (hl : option loc) :
  header_typed s hl ->
  exists es, header_entries (s ++ [o]) hl = Ret es /\ NoDup (map fst es) /\
    Forall (fun e => slice_typed s e.2) es /\ header_view s hl = map (sview s) es.
Proof.
  destruct hl as [l |]; simpl.
  - intros (h & Hl & Hnd & Ht). exists h.
    rewrite (lookup_app_l_Some _ _ _ _ Hl). unfold header_view. rewrite Hl.
    split_and!; done.
  - intros _. exists []. split_and!; [done | constructor | done | done].
Qed.

Lemma cloneRequest_spec (s : store) (r : loc) :
  wf_req s r ->
  exists rq s1 h2, s !! r = Some (OReq rq) /\ cloneRequest s r = Ret (s1, length s) /\
    frame s s1 /\ arrays_stable s s1 /\
    s1 !! length s = Some (OReq (mkReq (rMethod rq) (rURL rq) (Some (S (length s)))
                                       (rBody rq) (rHost rq))) /\
    s1 !! S (length s) = Some (OHeader h2) /\
    Forall (fun e => slice_typed s1 e.2) h2 /\
    Forall (fun e => slice_fresh (length s) e.2) h2 /\
    map (sview s1) h2 = header_view s (rHeader rq).
Proof.
  intros (rq & Hr & Ht).
  destruct (header_entries_typed s (OReq rq) (rHeader rq) Ht) as (es & He & Hnd & Te & Hv).
  set (sA := s ++ [OReq rq]).
  set (sB := sA ++ [OHeader []]).
  set (rq2 := mkReq (rMethod rq) (rURL rq) (Some (length sA)) (rBody rq) (rHost rq)).
  set (sC := write sB (length s) (OReq rq2)).
  assert (LA : length sA = S (length s)) by apply length_alloc.
  assert (LB : length sB = S (S (length s))) by (unfold sB; rewrite length_alloc; lia).
  assert (LC : length sC = S (S (length s))) by (unfold sC; rewrite length_write; lia).
  assert (HB : sB !! length s = Some (OReq rq)).
  { unfold sB. rewrite alloc_old by lia. apply alloc_new. }
  assert (SC : arrays_stable s sC).
  { apply (stable_trans s sA sC); [apply stable_alloc |].
    apply (stable_trans sA sB sC); [apply stable_alloc |].
    apply stable_write. intros xs. rewrite HB. discriminate. }
  assert (FC : frame s sC).
  { split; [lia |]. intros l Hl. unfold sC. rewrite write_ne by lia.
    unfold sB. rewrite alloc_old by lia. unfold sA. by rewrite alloc_old. }
  assert (HhC : sC !! length sA = Some (OHeader [])).
  { unfold sC. rewrite write_ne by lia. apply alloc_new. }
  destruct (Forall_slices_stable s sC es SC Te) as [TeC VeC].
  destruct (copy_header_spec (length s) es sC (length sA) [] HhC ltac:(lia)
              ltac:(constructor) ltac:(constructor) TeC)
    as ([L3 F3] & S3 & h2 & Hh3 & T3 & Fr3 & V3).
  exists rq, (copy_header sC (length sA) es []), h2.
  split_and!.
  - exact Hr.
  - unfold cloneRequest. rewrite Hr. unfold alloc at 1. cbv beta iota.
    rewrite He. reflexivity.
  - split; [lia |]. intros l Hl. rewrite F3 by lia. by apply FC.
  - by apply (stable_trans _ sC).
  - rewrite F3 by lia. unfold sC. rewrite write_eq by lia. unfold rq2. by rewrite LA.
  - rewrite <- LA. exact Hh3.
  - exact T3.
  - exact Fr3.
  - rewrite V3, Hv. simpl. rewrite fold_assoc_set_distinct; simpl.
    + unfold sview in *. by rewrite VeC.
    + by rewrite map_map.
Qed.

Lemma header_Set_spec (n : nat) (s : store) (l : loc) (h : list (string * option loc))
    (k v : string) :
  s !! l = Some (OHeader h) ->
  (n <= length s)%nat ->
  Forall (fun e => slice_typed s e.2) h ->
  Forall (fun e => slice_fresh n e.2) h ->
  exists s', header_Set s (Some l) k v = Ret s' /\ frame_except l s s' /\
    arrays_stable s s' /\
    exists h', s' !! l = Some (OHeader h') /\ Forall (fun e => slice_typed s' e.2) h' /\
      Forall (fun e => slice_fresh n e.2) h' /\
      map (sview s') h' = assoc_set k [v] (map (sview s) h).
Proof.
  intros Hl Hn Ht Hf.
  pose proof (lookup_lt_Some _ _ _ Hl) as Hlt.
  set (s1 := s ++ [OArray [v]]).
  set (h' := assoc_set k (Some (length s)) h).
  set (s' := write s1 l (OHeader h')).
  assert (S1 : arrays_stable s s').
  { eapply stable_trans; [apply stable_alloc |]. apply stable_write.
    unfold s1. rewrite alloc_old by lia. rewrite Hl. discriminate. }
  assert (Ha : s' !! length s = Some (OArray [v])).
  { unfold s'. rewrite write_ne by lia. apply alloc_new. }
  destruct (Forall_slices_stable s s' h S1 Ht) as [Ts Vs].
  exists s'. split_and!.
  - unfold header_Set. rewrite Hl. reflexivity.
  - eapply frame_except_trans; [apply frame_except_of_frame, frame_alloc |].
    apply frame_except_write.
  - exact S1.
  - exists h'. split_and!.
    + unfold s'. apply write_eq. unfold s1. rewrite length_alloc. lia.
    + apply Forall_assoc_set; [by exists [v] | exact Ts].
    + apply Forall_assoc_set; [simpl; lia | exact Hf].
    + unfold h', sview. rewrite (assoc_set_map (slice_view s')).
      unfold sview in Vs. rewrite Vs. unfold slice_view at 1. by rewrite Ha.
Qed.

Lemma frame_compose (x : loc) (s s1 s2 : store) :
  frame s s1 -> frame_except x s1 s2 -> (length s <= x)%nat -> frame s s2.
Proof.
  intros [L1 F1] [L2 F2] Hx. split; [lia |].
  intros l Hl. rewrite F2 by lia. by apply F1.
Qed.

(** One dispatch: the caller's cells are untouched, the request handed on
    is a fresh copy with its own header map and value arrays, stamped. *)
Lemma RoundTrip_spec (src : source) (s : store) (r : loc) :
  wf_req s r ->
  exists s' out, RoundTrip src s r = Ret (s', out) /\ frame s s' /\
    match src with
    | Some (inr tok) =>
        exists rq2 hl2 h2, out = RTSend (length s) /\
          s' !! length s = Some (OReq rq2) /\ rHeader rq2 = Some hl2 /\
          s' !! hl2 = Some (OHeader h2) /\ (length s <= hl2)%nat /\
          Forall (fun e => slice_fresh (length s) e.2) h2 /\
          request_view s' (length s) =
            option_map (view_set "Authorization" ("Token " +:+ token tok)) (request_view s r)
    | _ => exists e, out = RTErr e
    end.
Proof.
  intros Hwf.
  destruct (cloneRequest_spec s r Hwf)
    as (rq & s1 & h2 & Hr & Hc & F1 & S1 & Hr1 & Hh1 & T1 & Fr1 & V1).
  unfold RoundTrip. rewrite Hc.
  destruct src as [[err | tok] |].
  - exists s1, (RTErr (ErrWrap "roundtrip error" err)). split_and!; [done | done |]. by eexists.
  - pose proof F1 as [L1 G1].
    assert (Hlt : (S (length s) < length s1)%nat) by exact (lookup_lt_Some _ _ _ Hh1).
    destruct (header_Set_spec (length s) s1 (S (length s)) h2 "Authorization"
                ("Token " +:+ token tok) Hh1 ltac:(lia) T1 Fr1)
      as (s2 & Hs & FE & S2 & h3 & Hh3 & T3 & Fr3 & V3).
    unfold SetAuthorization. rewrite Hr1. simpl rHeader. rewrite Hs.
    exists s2, (RTSend (length s)). split_and!; [done | |].
    + apply (frame_compose (S (length s)) s s1 s2); [done | done | lia].
    + exists (mkReq (rMethod rq) (rURL rq) (Some (S (length s))) (rBody rq) (rHost rq)),
        (S (length s)), h3.
      assert (Hr2 : s2 !! length s = s1 !! length s) by (destruct FE as [_ G2]; apply G2; lia).
      split_and!; [done | by rewrite Hr2 | done | done | lia | done |].
      unfold request_view. rewrite Hr2, Hr1, Hr. simpl.
      unfold header_view at 1. rewrite Hh3.
      unfold sview in V3, V1. rewrite V3, V1. reflexivity.
  - exists s1, (RTErr (ErrText "auth: Transport's Source is nil")).
    split_and!; [done | done |]. by eexists.
Qed.

End HeapFacts.

(* ================================================================== *)
(** ** Properties of TokenAuthTransport and JWTToken.SetAuthorization *)

Import Heap HeapFacts.

(** C3.  [RoundTrip] never changes the caller's request: no cell that
    existed before the call is written (in particular the request struct,
    its header map and its value arrays), so the caller's view of the
    request is unchanged.  With a token, the request handed to the
    underlying transport is a new struct with a new header map whose
    value slices are nil or new arrays, and it carries the caller's
    fields and headers plus the Authorization header.  A second dispatch
    of the same request afterwards sees the original request again. *)
Theorem RoundTrip_no_caller_mutation (src src2 : source) (s : store) (r : loc) :
  wf_req s r ->
  exists s' out, RoundTrip src s r = Ret (s', out) /\
    frame s s' /\ request_view s' r = request_view s r /\
    match src with
    | Some (inr tok) =>
        exists r2 rq2 hl2 h2, out = RTSend r2 /\
          (length s <= r2)%nat /\ s' !! r2 = Some (OReq rq2) /\ rHeader rq2 = Some hl2 /\
          (length s <= hl2)%nat /\ s' !! hl2 = Some (OHeader h2) /\
          Forall (fun e => slice_fresh (length s) e.2) h2 /\
          request_view s' r2 =
            option_map (view_set "Authorization" ("Token " +:+ token tok)) (request_view s r)
    | _ => exists e, out = RTErr e
    end /\
    exists s'' out2, RoundTrip src2 s' r = Ret (s'', out2) /\
      frame s s'' /\ request_view s'' r = request_view s r /\
      match src2 with
      | Some (inr tok2) =>
          exists r3, out2 = RTSend r3 /\
            request_view s'' r3 =
              option_map (view_set "Authorization" ("Token " +:+ token tok2)) (request_view s r)
      | _ => exists e, out2 = RTErr e
      end.
Proof.
  intros Hwf.
  destruct (RoundTrip_spec src s r Hwf) as (s' & out & Hrt & F & Hout).
  pose proof (wf_req_frame s s' r F Hwf) as Hwf'.
  destruct (RoundTrip_spec src2 s' r Hwf') as (s'' & out2 & Hrt2 & F2 & Hout2).
  pose proof (request_view_frame s s' r F Hwf) as V1.
  exists s', out. split_and!; [exact Hrt | exact F | exact V1 | |].
  - destruct src as [[err | tok] |]; [exact Hout | | exact Hout].
    destruct Hout as (rq2 & hl2 & h2 & -> & Hr2 & Hh & Hl & Hle & Fr & V).
    exists (length s), rq2, hl2, h2. split_and!; done.
  - exists s'', out2. split_and!; [exact Hrt2 | | |].
    + exact (frame_trans _ _ _ F F2).
    + rewrite (request_view_frame s' s'' r F2 Hwf'). exact V1.
    + destruct src2 as [[err | tok2] |]; [exact Hout2 | | exact Hout2].
      destruct Hout2 as (rq3 & hl3 & h3 & -> & _ & _ & _ & _ & _ & V).
      exists (length s'). split; [done |]. by rewrite V, V1.
Qed.

Lemma RoundTrip_no_caller_mutation_witness :
  let s := [OReq (mkReq "GET" (Some 3%nat) (Some 1%nat) None "api.example.com");
            OHeader [("Accept", Some 2%nat)]; OArray ["application/json"]; OOpaque] in
  let tok := mkJWT "h.eyJleHAiOjE3MDAwMDAwMDB9.s" 1700000000 in
  wf_req s 0 /\
  exists s' out, RoundTrip (Some (inr tok)) s 0 = Ret (s', out) /\
    frame s s' /\ request_view s' 0 = request_view s 0 /\
    (exists r2 rq2 hl2 h2, out = RTSend r2 /\
       (length s <= r2)%nat /\ s' !! r2 = Some (OReq rq2) /\ rHeader rq2 = Some hl2 /\
       (length s <= hl2)%nat /\ s' !! hl2 = Some (OHeader h2) /\
       Forall (fun e => slice_fresh (length s) e.2) h2 /\
       request_view s' r2 =
         option_map (view_set "Authorization" ("Token " +:+ token tok)) (request_view s 0)) /\
    exists s'' out2, RoundTrip (Some (inr tok)) s' 0 = Ret (s'', out2) /\
      frame s s'' /\ request_view s'' 0 = request_view s 0 /\
      exists r3, out2 = RTSend r3 /\
        request_view s'' r3 =
          option_map (view_set "Authorization" ("Token " +:+ token tok)) (request_view s 0).
Proof.
  intros s tok.
  assert (Hwf : wf_req s 0).
  { exists (mkReq "GET" (Some 3%nat) (Some 1%nat) None "api.example.com").
    split; [reflexivity |]. exists [("Accept"%string, Some 2%nat)].
    split_and!; [reflexivity | apply NoDup_singleton | repeat constructor].
    simpl. by exists ["application/json"%string]. }
  split; [exact Hwf |].
  exact (RoundTrip_no_caller_mutation (Some (inr tok)) (Some (inr tok)) s 0 Hwf).
Defined.

(** C8 (as corrected).  On a request whose header map is non-nil,
    [SetAuthorization] sets Authorization to the single value
    "Token " + the raw token string and changes nothing else the request
    shows; a second call leaves the request as the first one did.  On a
    request whose header map is nil, [Header.Set] panics. *)
Theorem SetAuthorization_idempotent (t : JWTToken) (s : store) (r : loc) (rq : request) :
  s !! r = Some (OReq rq) ->
  header_typed s (rHeader rq) ->
  match rHeader rq with
  | None => SetAuthorization t s r = Panic
  | Some _ =>
      exists s1 s2, SetAuthorization t s r = Ret s1 /\ SetAuthorization t s1 r = Ret s2 /\
        request_view s1 r =
          option_map (view_set "Authorization" ("Token " +:+ token t)) (request_view s r) /\
        request_view s2 r = request_view s1 r
  end.
Proof.
  intros Hr Ht.
  destruct (rHeader rq) as [l |] eqn:El;
    [| unfold SetAuthorization; rewrite Hr, El; reflexivity].
  destruct Ht as (h & Hl & _ & Th).
  assert (Hne : r <> l) by (intros ->; congruence).
  destruct (header_Set_spec 0 s l h "Authorization" ("Token " +:+ token t) Hl
              ltac:(lia) Th ltac:(apply Forall_forall; intros [? [?|]] _; simpl; lia))
    as (s1 & Hs1 & [L1 F1] & S1 & h1 & Hl1 & T1 & Fr1 & V1).
  assert (Hr1 : s1 !! r = Some (OReq rq)) by (rewrite F1; [exact Hr | exact (lookup_lt_Some _ _ _ Hr) | exact Hne]).
  destruct (header_Set_spec 0 s1 l h1 "Authorization" ("Token " +:+ token t) Hl1
              ltac:(lia) T1 Fr1)
    as (s2 & Hs2 & [L2 F2] & S2 & h2 & Hl2 & T2 & Fr2 & V2).
  assert (Hr2 : s2 !! r = Some (OReq rq)) by (rewrite F2; [exact Hr1 | exact (lookup_lt_Some _ _ _ Hr1) | exact Hne]).
  exists s1, s2. unfold SetAuthorization. rewrite Hr, Hr1, El, Hs1, Hs2.
  split_and!; [done | done | |].
  - unfold request_view. rewrite Hr1, Hr, El. simpl.
    unfold header_view. rewrite Hl1, Hl. unfold sview in V1. by rewrite V1.
  - unfold request_view. rewrite Hr2, Hr1, El. unfold header_view. rewrite Hl2, Hl1.
    unfold sview in V1, V2. by rewrite V2, V1, assoc_set_idem.
Qed.

(** Both branches: a request with a header map holding an old
    Authorization value, and a zero request with a nil header map. *)
Lemma SetAuthorization_idempotent_witness :
  let s := [OReq (mkReq "GET" None (Some 1%nat) None "api.example.com");
            OHeader [("Authorization", Some 2%nat)]; OArray ["Token old"]] in
  let s0 := [OReq (mkReq "GET" None None None "")] in
  let t := mkJWT "h.e30.s" 0 in
  (exists s1 s2, SetAuthorization t s 0 = Ret s1 /\ SetAuthorization t s1 0 = Ret s2 /\
    request_view s1 0 =
      option_map (view_set "Authorization" ("Token " +:+ token t)) (request_view s 0) /\
    request_view s2 0 = request_view s1 0) /\
  SetAuthorization t s0 0 = Panic.
Proof.
  intros s s0 t. split.
  - apply (SetAuthorization_idempotent t s 0 (mkReq "GET" None (Some 1%nat) None "api.example.com")).
    + reflexivity.
    + exists [("Authorization"%string, Some 2%nat)].
      split_and!; [reflexivity | apply NoDup_singleton | repeat constructor].
      simpl. by exists ["Token old"%string].
  - exact (SetAuthorization_idempotent t s0 0 (mkReq "GET" None None None "")
             eq_refl I).
Defined.

(** C8: on a request whose [Header] is nil (a zero [http.Request]),
    [SetAuthorization] panics instead of leaving an Authorization value. *)
Lemma SetAuthorization_nil_header_counterexample :
  SetAuthorization (mkJWT "h.e30.s" 0) [OReq (mkReq "GET" None None None "")] 0 = Panic.
Proof. reflexivity. Qed.

(* ================================================================== *)
(** ** Further properties of JWTToken *)

Lemma length_split (sep : ascii) (s : string) :
  length (split sep s) = S (count_char sep s).
Proof.
  induction s as [| c rest IH]; simpl; [reflexivity |].
  destruct (Ascii.eqb c sep); simpl.
  - by rewrite IH.
  - destruct (split sep rest) as [| p ps]; simpl in *; [discriminate | lia].
Qed.

Lemma length_string_app (s1 s2 : string) :
  String.length (s1 ++ s2) = (String.length s1 + String.length s2)%nat.
Proof. induction s1 as [| c s1 IH]; [reflexivity | exact (f_equal S IH)]. Qed.

Lemma string_app_empty (s : string) : (s ++ "")%string = s.
Proof. induction s as [| c s IH]; [reflexivity | exact (f_equal (String c) IH)]. Qed.

Lemma length_repeat_eq (n : nat) : String.length (repeat_eq n) = n.
Proof. induction n; simpl; lia. Qed.

(** The payload padding appends fewer than four '=' and makes the length
    a multiple of 4; a payload whose length already is one is unchanged. *)
Theorem pad_payload_spec (payload : string) :
  (exists k, (k < 4)%nat /\ pad_payload payload = (payload ++ repeat_eq k)%string) /\
  (String.length (pad_payload payload) mod 4 = 0)%nat /\
  ((String.length payload mod 4 = 0)%nat -> pad_payload payload = payload).
Proof.
  unfold pad_payload.
  pose proof (Nat.mod_upper_bound (String.length payload) 4 ltac:(lia)) as Hb.
  destruct (Nat.ltb_spec 0 (String.length payload mod 4)) as [Hl | Hl].
  - split_and!.
    + exists (4 - String.length payload mod 4)%nat. split; [lia | reflexivity].
    + rewrite length_string_app, length_repeat_eq.
      rewrite (Nat.div_mod_eq (String.length payload) 4) at 1.
      replace (4 * (String.length payload / 4) + String.length payload mod 4
               + (4 - String.length payload mod 4))%nat
        with ((String.length payload / 4 + 1) * 4)%nat by lia.
      apply Nat.Div0.mod_mul.
    + lia.
  - split_and!; [exists O; split; [lia | by rewrite string_app_empty] | lia | done].
Qed.

(** [NewJWTToken] rejects with the segment error exactly the strings that
    do not contain two dots. *)
Theorem NewJWTToken_segment_error_iff (tok : string) :
  NewJWTToken tok = Ret (inl (ErrWrap "new jwt token error" (ErrText "need jwt token")))
  <-> count_char dot tok <> 2%nat.
Proof.
  unfold NewJWTToken, SetExpireTime; simpl token. rewrite length_split.
  destruct (Nat.eqb_spec (S (count_char dot tok)) 3) as [H3 | H3]; simpl.
  - split; [| lia]. unfold decode_payload.
    destruct (b64url_decode _) as [b |]; [| discriminate].
    destruct (json_unmarshal_map b) as [err | m]; [discriminate |].
    destruct (map_lookup "exp" m) as [[] |]; discriminate.
  - split; [intros _; lia | reflexivity].
Qed.

(** Every outcome of [NewJWTToken]: a token keeping the input string, an
    error wrapped with "new jwt token error", or a panic. *)
Theorem NewJWTToken_outcomes (tok : string) :
  (exists t, NewJWTToken tok = Ret (inr t) /\ token t = tok) \/
  (exists e, NewJWTToken tok = Ret (inl (ErrWrap "new jwt token error" e))) \/
  NewJWTToken tok = Panic.
Proof.
  unfold NewJWTToken, SetExpireTime; simpl token.
  destruct (negb (length (split dot tok) =? 3)%nat).
  - right; left. by eexists.
  - destruct (decode_payload _) as [err | m]; [right; left; by eexists |].
    destruct (map_lookup "exp" m) as [[] |];
      first [right; right; reflexivity | left; by eexists].
Qed.

(** A token valid at some time is valid at every earlier time (no int64
    overflow of [now + 10]). *)
Theorem Valid_antitone (t : JWTToken) (now1 now2 : Z) :
  int64_min <= now1 -> now1 <= now2 -> now2 <= int64_max - 10 ->
  Valid now2 (Some t) = true -> Valid now1 (Some t) = true.
Proof.
  intros H1 H12 H2. unfold Valid, almostExpired.
  rewrite !wrap64_small by (unfold in_int64, int64_min, int64_max in *; lia).
  destruct (negb (String.eqb (token t) "")); simpl; [| done].
  destruct (expiredAt t =? 0); simpl; [done |].
  rewrite !Z.gtb_ltb. intros Hv. apply negb_true_iff in Hv. apply negb_true_iff.
  apply Z.ltb_ge in Hv. apply Z.ltb_ge. lia.
Qed.

Lemma Valid_antitone_witness :
  int64_min <= 1699999000 /\ 1699999000 <= 1699999990 /\ 1699999990 <= int64_max - 10 /\
  Valid 1699999990 (Some (mkJWT "h.eyJleHAiOjE3MDAwMDAwMDB9.s" 1700000000)) = true /\
  Valid 1699999000 (Some (mkJWT "h.eyJleHAiOjE3MDAwMDAwMDB9.s" 1700000000)) = true.
Proof.
  assert (H : int64_min <= 1699999000 /\ 1699999000 <= 1699999990 /\
              1699999990 <= int64_max - 10) by (unfold int64_min, int64_max; lia).
  destruct H as (H1 & H2 & H3).
  assert (Hv : Valid 1699999990 (Some (mkJWT "h.eyJleHAiOjE3MDAwMDAwMDB9.s" 1700000000)) = true)
    by reflexivity.
  split_and!; [exact H1 | exact H2 | exact H3 | exact Hv |].
  exact (Valid_antitone _ _ _ H1 H2 H3 Hv).
Defined.

(** [json.Unmarshal] into a map only fails with a JSON error. *)
Lemma json_unmarshal_map_err (b : list ascii) (e : error) :
  json_unmarshal_map b = inl e -> exists je, e = ErrJSON je.
Proof.
  unfold json_unmarshal_map.
  destruct (parse_value _ _ b) as [v rest | |]; intros H.
  - destruct (bool_decide _); [| injection H as <-; by eexists].
    destruct v; try discriminate; try (injection H as <-; by eexists).
    destruct (iface_value _) as [[] []]; try discriminate; injection H as <-; by eexists.
  - injection H as <-. by eexists.
  - injection H as <-. by eexists.
Qed.

(** Every error of [NewJWTToken] is the segment count error, a base64
    error or a JSON error, each under its own prefix and under
    "new jwt token error". *)
Theorem NewJWTToken_error_kinds (tok : string) (e : error) :
  NewJWTToken tok = Ret (inl e) ->
  e = ErrWrap "new jwt token error" (ErrText "need jwt token") \/
  e = ErrWrap "new jwt token error" (ErrWrap "decode jwt token error" ErrBase64) \/
  exists je, e = ErrWrap "new jwt token error"
                   (ErrWrap "unmarshal decode jwt token error" (ErrJSON je)).
Proof.
  unfold NewJWTToken, SetExpireTime; simpl token.
  destruct (negb _); [intros H; injection H as <-; by left |].
  unfold decode_payload.
  destruct (b64url_decode _) as [b |]; [| intros H; injection H as <-; by right; left].
  destruct (json_unmarshal_map b) as [err | m] eqn:Ej.
  - intros H. injection H as <-. right; right.
    destruct (json_unmarshal_map_err b err Ej) as [je ->]. by exists je.
  - destruct (map_lookup "exp" m) as [[] |]; discriminate.
Qed.

Lemma NewJWTToken_error_kinds_witness :
  NewJWTToken "a.b" = Ret (inl (ErrWrap "new jwt token error" (ErrText "need jwt token"))) /\
  (ErrWrap "new jwt token error" (ErrText "need jwt token")
     = ErrWrap "new jwt token error" (ErrText "need jwt token") \/
   ErrWrap "new jwt token error" (ErrText "need jwt token")
     = ErrWrap "new jwt token error" (ErrWrap "decode jwt token error" ErrBase64) \/
   exists je, ErrWrap "new jwt token error" (ErrText "need jwt token")
     = ErrWrap "new jwt token error" (ErrWrap "unmarshal decode jwt token error" (ErrJSON je))).
Proof.
  assert (H : NewJWTToken "a.b"
              = Ret (inl (ErrWrap "new jwt token error" (ErrText "need jwt token"))))
    by reflexivity.
  split; [exact H | exact (NewJWTToken_error_kinds _ _ H)].
Defined.








(** Base64 decoding turns every four characters into at most three bytes,
    and into exactly three except in the padded last quantum. *)
Theorem b64_quanta_length (cs : list ascii) (bs : list ascii) :
  b64_quanta cs = Some bs ->
  (length cs mod 4 = 0)%nat /\ (length bs <= 3 * (length cs / 4))%nat /\
  (3 * (length cs / 4) <= length bs + 2)%nat.
Proof.
  revert bs. induction cs as [cs IH] using (induction_ltof1 _ (@length ascii)).
  unfold ltof in IH. intros bs H.
  destruct cs as [| c1 [| c2 [| c3 [| c4 rest]]]]; cbn [b64_quanta] in H; try discriminate.
  { injection H as <-. simpl. lia. }
  replace (length (c1 :: c2 :: c3 :: c4 :: rest)) with (length rest + 1 * 4)%nat
    by (simpl; lia).
  rewrite Nat.Div0.mod_add, Nat.div_add by lia.
  destruct (b64url_value c1) as [v1 |]; [| discriminate].
  destruct (b64url_value c2) as [v2 |]; [| discriminate].
  destruct (b64url_value c3) as [v3 |]; destruct (b64url_value c4) as [v4 |].
  - destruct (b64_quanta rest) as [bs' |] eqn:Er; [| discriminate].
    injection H as <-.
    destruct (IH rest ltac:(simpl; lia) bs' Er) as (M & L1 & L2).
    cbn [length]. lia.
  - destruct (Ascii.eqb c4 "=" && bool_decide (rest = [])) eqn:E; [| discriminate].
    apply andb_true_iff in E as [_ E]. apply bool_decide_eq_true in E. subst rest.
    injection H as <-. simpl. lia.
  - destruct (Ascii.eqb c3 "=" && Ascii.eqb c4 "=" && bool_decide (rest = [])) eqn:E;
      [| discriminate].
    apply andb_true_iff in E as [_ E]. apply bool_decide_eq_true in E. subst rest.
    injection H as <-. simpl. lia.
  - destruct (Ascii.eqb c3 "=" && Ascii.eqb c4 "=" && bool_decide (rest = [])) eqn:E;
      [| discriminate].
    apply andb_true_iff in E as [_ E]. apply bool_decide_eq_true in E. subst rest.
    injection H as <-. simpl. lia.
Qed.

Lemma b64_quanta_length_witness :
  b64_quanta (list_ascii_of_string "e30=") = Some (list_ascii_of_string "{}") /\
  (length (list_ascii_of_string "e30=") mod 4 = 0)%nat /\
  (length (list_ascii_of_string "{}") <= 3 * (length (list_ascii_of_string "e30=") / 4))%nat /\
  (3 * (length (list_ascii_of_string "e30=") / 4) <= length (list_ascii_of_string "{}") + 2)%nat.
Proof.
  assert (H : b64_quanta (list_ascii_of_string "e30=") = Some (list_ascii_of_string "{}"))
    by reflexivity.
  split; [exact H | exact (b64_quanta_length _ _ H)].
Defined.

(* ================================================================== *)
(** ** httpx.New and Client.Copy (client.go) *)

(** [req.Header.Get(k)] for a canonical key: the values of the first
    entry with that key. *)
Fixpoint header_get (k : string) (h : list (string * list string)) : option (list string) :=
  match h with
  | [] => None
  | (k', vs) :: h' => if String.eqb k' k then Some vs else header_get k h'
  end.

Arguments BaseURL {url_t}.
Arguments UserAgent {url_t}.

Section NewClient.

(** [url.Parse] and [http.DefaultClient], as parameters; [hc_t] stands
    for [*http.Client]. *)
Variable url_t : Type.
Variable url_Parse : string -> error + url_t.
Variable hc_t : Type.
Variable DefaultClient : hc_t.

(** A [*Client] with its unexported [httpClient] field. *)
Definition client := (Client url_t * hc_t)%type.

Definition New (baseURL userAgent : string) (httpClient : option hc_t) : error + client :=
  let httpClient := match httpClient with Some h => h | None => DefaultClient end in
  let userAgent := if String.eqb userAgent "" then "httpx" else userAgent in
  match url_Parse baseURL with
  | inl err => inl (ErrWrap "create httpx client error" err)
  | inr u => inr ({| BaseURL := u; UserAgent := userAgent |}, httpClient)
  end.

(** [c.Copy(httpClient)] on a non-nil [c]. *)
Definition Copy (c : client) (httpClient : option hc_t) : client :=
  let httpClient := match httpClient with Some h => h | None => DefaultClient end in
  ({| BaseURL := BaseURL c.1; UserAgent := UserAgent c.1 |}, httpClient).

End NewClient.

(* ================================================================== *)
(** ** Further properties of request building *)

Lemma header_get_set_eq (k v : string) (h : list (string * list string)) :
  header_get k (header_set k v h) = Some [v].
Proof.
  induction h as [| [k' vs] h IH]; simpl; [by rewrite String.eqb_refl |].
  destruct (String.eqb_spec k' k); simpl; [by rewrite String.eqb_refl |].
  rewrite (proj2 (String.eqb_neq k' k) n). exact IH.
Qed.

Lemma header_get_set_ne (k k' v : string) (h : list (string * list string)) :
  k <> k' -> header_get k' (header_set k v h) = header_get k' h.
Proof.
  intros Hne. induction h as [| [k0 vs] h IH]; simpl.
  - by rewrite (proj2 (String.eqb_neq k k') Hne).
  - destruct (String.eqb_spec k0 k) as [-> |]; simpl.
    + by rewrite (proj2 (String.eqb_neq k k') Hne).
    + destruct (String.eqb k0 k'); [reflexivity | exact IH].
Qed.

Ltac header_get_simpl :=
  repeat first [rewrite header_get_set_eq | rewrite header_get_set_ne by congruence].

Section BuildFacts.

Variable url_t : Type.
Variable url_parse_ref : url_t -> string -> error + url_t.
Variable url_set_params : url_t -> list (string * string) -> url_t.
Variable url_String : url_t -> string.
Variable body_t : Type.
Variable json_encode : body_t -> error + list ascii.
Variable http_NewRequest : string -> string -> option (list ascii) -> error + http_request.

(** What a successful [NewRequest] did. *)
Definition NewRequest_built (c : Client url_t) (method urlStr : string)
    (params : option (list (string * string))) (body : option body_t)
    (req' : http_request) : Prop :=
  has_slash_prefix urlStr = true /\
  exists u buf req,
    url_parse_ref (BaseURL c) urlStr = inr u /\
    match body with
    | None => buf = None
    | Some b => exists bs, json_encode b = inr bs /\ buf = Some bs
    end /\
    http_NewRequest method
      (url_String (match params with Some ps => url_set_params u ps | None => u end)) buf
      = inr req /\
    Method req' = Method req /\ URL req' = URL req /\ BodyBytes req' = BodyBytes req /\
    header_get "User-Agent" (Header req') = Some [UserAgent c] /\
    header_get "Accept" (Header req') = Some ["application/json"%string] /\
    header_get "Content-Type" (Header req') =
      match body with
      | Some _ => Some ["application/json"%string]
      | None => header_get "Content-Type" (Header req)
      end /\
    forall k, k <> "User-Agent"%string -> k <> "Accept"%string -> k <> "Content-Type"%string ->
      header_get k (Header req') = header_get k (Header req).

Lemma NewRequest_inr (c : Client url_t) (method urlStr : string)
    (params : option (list (string * string))) (body : option body_t) (req' : http_request) :
  NewRequest url_t url_parse_ref url_set_params url_String body_t json_encode
    http_NewRequest c method urlStr params body = inr req' ->
  NewRequest_built c method urlStr params body req'.
Proof.
  unfold NewRequest, NewRequest_built.
  destruct (has_slash_prefix urlStr); simpl; [| discriminate].
  destruct (url_parse_ref (BaseURL c) urlStr) as [err | u]; [discriminate |].
  destruct body as [b |].
  - destruct (json_encode b) as [err | bs] eqn:Eb; [discriminate |].
    destruct (http_NewRequest _ _ _) as [err | req] eqn:Er; [discriminate |].
    intros H. injection H as <-. split; [done |].
    exists u, (Some bs), req. simpl. split_and!; try done.
    + by exists bs.
    + header_get_simpl. reflexivity.
    + header_get_simpl. reflexivity.
    + header_get_simpl. reflexivity.
    + intros k H1 H2 H3. header_get_simpl. reflexivity.
  - destruct (http_NewRequest _ _ _) as [err | req] eqn:Er; [discriminate |].
    intros H. injection H as <-. split; [done |].
    exists u, None, req. simpl. split_and!; try done.
    + header_get_simpl. reflexivity.
    + header_get_simpl. reflexivity.
    + header_get_simpl. reflexivity.
    + intros k H1 H2 H3. header_get_simpl. reflexivity.
Qed.

End BuildFacts.

(** A request built by [NewRequest] carries User-Agent = the client's
    user agent and Accept = application/json, and Content-Type =
    application/json exactly when a body was given (otherwise what
    [http.NewRequest] set); the body is the JSON encoding of [body], the
    URL is the resolved one with the query parameters, and no other
    header is touched. *)
Theorem NewRequest_sets_headers
    (url_t : Type) (url_parse_ref : url_t -> string -> error + url_t)
    (url_set_params : url_t -> list (string * string) -> url_t)
    (url_String : url_t -> string) (body_t : Type)
    (json_encode : body_t -> error + list ascii)
    (http_NewRequest : string -> string -> option (list ascii) -> error + http_request)
    (c : Client url_t) (method urlStr : string)
    (params : option (list (string * string))) (body : option body_t) (req' : http_request) :
  NewRequest url_t url_parse_ref url_set_params url_String body_t json_encode
    http_NewRequest c method urlStr params body = inr req' ->
  NewRequest_built url_t url_parse_ref url_set_params url_String body_t json_encode
    http_NewRequest c method urlStr params body req'.
Proof. apply NewRequest_inr. Qed.

(** A toy environment for the witnesses: URLs are strings, resolving
    appends the path, and [http.NewRequest] sets no header. *)
Definition toy_parse_ref (b p : string) : error + string := inr (b +:+ p).
Definition toy_set_params (u : string) (ps : list (string * string)) : string :=
  u +:+ "?" +:+ String.concat "&" (map (fun kv => kv.1 +:+ "=" +:+ kv.2) ps).
Definition toy_encode (b : string) : error + list ascii := inr (list_ascii_of_string b).
Definition toy_NewRequest (m u : string) (b : option (list ascii)) : error + http_request :=
  inr (mkHttpRequest m u [] b).
Definition toy_client : Client string := mkClient string "https://api.example.com" "httpx".

Lemma NewRequest_sets_headers_witness :
  exists req', NewRequest string toy_parse_ref toy_set_params (fun u => u) string toy_encode
    toy_NewRequest toy_client "POST" "/users" (Some [("page", "2")]%string) (Some "{}"%string)
    = inr req' /\
  NewRequest_built string toy_parse_ref toy_set_params (fun u => u) string toy_encode
    toy_NewRequest toy_client "POST" "/users" (Some [("page", "2")]%string) (Some "{}"%string) req'.
Proof.
  eexists. split; [reflexivity |].
  apply (NewRequest_sets_headers string toy_parse_ref toy_set_params (fun u => u) string
           toy_encode toy_NewRequest).
  reflexivity.
Defined.

(** A request built by [NewMultiPartRequest] hands the caller's body to
    [http.NewRequest] unchanged and carries Content-Type = the given
    content type, Accept = application/json and User-Agent = the client's
    user agent; no other header is touched. *)
Theorem NewMultiPartRequest_sets_headers
    (url_t : Type) (url_parse_ref : url_t -> string -> error + url_t)
    (url_String : url_t -> string)
    (http_NewRequest : string -> string -> option (list ascii) -> error + http_request)
    (c : Client url_t) (method urlStr : string) (body : option (list ascii))
    (contentType : string) (req' : http_request) :
  NewMultiPartRequest url_t url_parse_ref url_String http_NewRequest c method urlStr
    body contentType = inr req' ->
  body <> None /\ has_slash_prefix urlStr = true /\
  exists u req,
    url_parse_ref (BaseURL c) urlStr = inr u /\
    http_NewRequest method (url_String u) body = inr req /\
    Method req' = Method req /\ URL req' = URL req /\ BodyBytes req' = BodyBytes req /\
    header_get "Content-Type" (Header req') = Some [contentType] /\
    header_get "Accept" (Header req') = Some ["application/json"%string] /\
    header_get "User-Agent" (Header req') = Some [UserAgent c] /\
    forall k, k <> "User-Agent"%string -> k <> "Accept"%string -> k <> "Content-Type"%string ->
      header_get k (Header req') = header_get k (Header req).
Proof.
  unfold NewMultiPartRequest. destruct body as [b |]; [| discriminate].
  destruct (has_slash_prefix urlStr); simpl; [| discriminate].
  destruct (url_parse_ref (BaseURL c) urlStr) as [err | u]; [discriminate |].
  destruct (http_NewRequest _ _ _) as [err | req] eqn:Er; [discriminate |].
  intros H. injection H as <-. split_and!; [discriminate | done |].
  exists u, req. simpl. split_and!; try done.
  - header_get_simpl. reflexivity.
  - header_get_simpl. reflexivity.
  - header_get_simpl. reflexivity.
  - intros k H1 H2 H3. header_get_simpl. reflexivity.
Qed.

Lemma NewMultiPartRequest_sets_headers_witness :
  exists req', NewMultiPartRequest string toy_parse_ref (fun u => u) toy_NewRequest toy_client
    "POST" "/upload" (Some (list_ascii_of_string "--b--")) "multipart/form-data; boundary=b"
    = inr req' /\
  Some (list_ascii_of_string "--b--") <> None /\ has_slash_prefix "/upload" = true /\
  exists u req,
    toy_parse_ref (BaseURL toy_client) "/upload" = inr u /\
    toy_NewRequest "POST" u (Some (list_ascii_of_string "--b--")) = inr req /\
    Method req' = Method req /\ URL req' = URL req /\ BodyBytes req' = BodyBytes req /\
    header_get "Content-Type" (Header req') = Some ["multipart/form-data; boundary=b"%string] /\
    header_get "Accept" (Header req') = Some ["application/json"%string] /\
    header_get "User-Agent" (Header req') = Some [UserAgent toy_client] /\
    forall k, k <> "User-Agent"%string -> k <> "Accept"%string -> k <> "Content-Type"%string ->
      header_get k (Header req') = header_get k (Header req).
Proof.
  eexists. split; [reflexivity |].
  apply (NewMultiPartRequest_sets_headers string toy_parse_ref (fun u => u) toy_NewRequest).
  reflexivity.
Defined.

(** Every error of [NewRequest] carries its "httpx new request error"
    prefix: the slash check, or a wrapped error of the URL resolution,
    the JSON encoding or [http.NewRequest]. *)
Theorem NewRequest_error_prefix
    (url_t : Type) (url_parse_ref : url_t -> string -> error + url_t)
    (url_set_params : url_t -> list (string * string) -> url_t)
    (url_String : url_t -> string) (body_t : Type)
    (json_encode : body_t -> error + list ascii)
    (http_NewRequest : string -> string -> option (list ascii) -> error + http_request)
    (c : Client url_t) (method urlStr : string)
    (params : option (list (string * string))) (body : option body_t) (e : error) :
  NewRequest url_t url_parse_ref url_set_params url_String body_t json_encode
    http_NewRequest c method urlStr params body = inl e ->
  (has_slash_prefix urlStr = false /\ e = ErrSlash "httpx new request error" urlStr) \/
  exists e', e = ErrWrap "httpx new request error" e' /\
    (url_parse_ref (BaseURL c) urlStr = inl e' \/
     (exists b, body = Some b /\ json_encode b = inl e') \/
     exists s buf, http_NewRequest method s buf = inl e').
Proof.
  unfold NewRequest.
  destruct (has_slash_prefix urlStr); simpl; [| intros H; injection H as <-; by left].
  destruct (url_parse_ref (BaseURL c) urlStr) as [err | u];
    [intros H; injection H as <-; right; exists err; by split; [| left] |].
  destruct body as [b |].
  - destruct (json_encode b) as [err | bs] eqn:Eb.
    + intros H. injection H as <-. right. exists err. split; [done |]. right; left. by exists b.
    + destruct (http_NewRequest _ _ _) as [err | req] eqn:Er; [| discriminate].
      intros H. injection H as <-. right. exists err. split; [done |]. right; right. by eexists _, _.
  - destruct (http_NewRequest _ _ _) as [err | req] eqn:Er; [| discriminate].
    intros H. injection H as <-. right. exists err. split; [done |]. right; right. by eexists _, _.
Qed.

Lemma NewRequest_error_prefix_witness :
  NewRequest string (fun _ _ => inl (ErrText "parse error")) toy_set_params (fun u => u)
    string toy_encode toy_NewRequest toy_client "GET" "/users" None None
  = inl (ErrWrap "httpx new request error" (ErrText "parse error")) /\
  ((has_slash_prefix "/users" = false /\
    ErrWrap "httpx new request error" (ErrText "parse error")
      = ErrSlash "httpx new request error" "/users") \/
   exists e', ErrWrap "httpx new request error" (ErrText "parse error")
                = ErrWrap "httpx new request error" e' /\
     ((fun _ _ => inl (ErrText "parse error")) (BaseURL toy_client) "/users"%string
        = @inl error string e' \/
      (exists b, @None string = Some b /\ toy_encode b = inl e') \/
      exists s buf, toy_NewRequest "GET" s buf = inl e')).
Proof.
  assert (H : NewRequest string (fun _ _ => inl (ErrText "parse error")) toy_set_params
                (fun u => u) string toy_encode toy_NewRequest toy_client "GET" "/users" None None
              = inl (ErrWrap "httpx new request error" (ErrText "parse error")))
    by reflexivity.
  split; [exact H |].
  exact (NewRequest_error_prefix string (fun _ _ => inl (ErrText "parse error")) toy_set_params
           (fun u => u) string toy_encode toy_NewRequest toy_client "GET" "/users" None None _ H).
Defined.

(** [New] fails exactly when [url.Parse] fails, with that error wrapped. *)
Theorem New_error_iff (url_t : Type) (url_Parse : string -> error + url_t)
    (hc_t : Type) (DefaultClient : hc_t)
    (baseURL userAgent : string) (httpClient : option hc_t) (e : error) :
  New url_t url_Parse hc_t DefaultClient baseURL userAgent httpClient = inl e <->
  exists e', url_Parse baseURL = inl e' /\ e = ErrWrap "create httpx client error" e'.
Proof.
  unfold New. destruct (url_Parse baseURL) as [err | u]; split.
  - intros H. injection H as <-. by exists err.
  - intros (e' & H & ->). by injection H as ->.
  - discriminate.
  - intros (e' & H & _). discriminate.
Qed.

Lemma Copy_fold_config (url_t hc_t : Type) (DefaultClient : hc_t)
    (hcs : list (option hc_t)) (c0 : client url_t hc_t) :
  BaseURL (fold_left (Copy url_t hc_t DefaultClient) hcs c0).1 = BaseURL c0.1 /\
  UserAgent (fold_left (Copy url_t hc_t DefaultClient) hcs c0).1 = UserAgent c0.1.
Proof.
  revert c0. induction hcs as [| h hcs IH]; intros c0; simpl; [done |].
  destruct (IH (Copy url_t hc_t DefaultClient c0 h)) as [-> ->]. done.
Qed.

(** Composition of [New], any chain of [Copy] and [NewRequest]: the
    client keeps the parsed base URL and the user agent, which is the
    given one or "httpx" when it was empty (so never empty), and every
    request the client builds carries that User-Agent. *)
Theorem New_Copy_NewRequest_user_agent
    (url_t : Type) (url_Parse : string -> error + url_t) (hc_t : Type) (DefaultClient : hc_t)
    (url_parse_ref : url_t -> string -> error + url_t)
    (url_set_params : url_t -> list (string * string) -> url_t)
    (url_String : url_t -> string) (body_t : Type)
    (json_encode : body_t -> error + list ascii)
    (http_NewRequest : string -> string -> option (list ascii) -> error + http_request)
    (baseURL ua : string) (hc : option hc_t) (c0 : client url_t hc_t)
    (hcs : list (option hc_t)) :
  New url_t url_Parse hc_t DefaultClient baseURL ua hc = inr c0 ->
  let c := fold_left (Copy url_t hc_t DefaultClient) hcs c0 in
  url_Parse baseURL = inr (BaseURL c.1) /\
  UserAgent c.1 = (if String.eqb ua "" then "httpx"%string else ua) /\
  UserAgent c.1 <> ""%string /\
  forall method urlStr params body req,
    NewRequest url_t url_parse_ref url_set_params url_String body_t json_encode
      http_NewRequest c.1 method urlStr params body = inr req ->
    header_get "User-Agent" (Header req) =
      Some [if String.eqb ua "" then "httpx"%string else ua].
Proof.
  intros Hn c.
  assert (Hc : url_Parse baseURL = inr (BaseURL c0.1) /\
               UserAgent c0.1 = (if String.eqb ua "" then "httpx"%string else ua)).
  { revert Hn. unfold New. destruct (url_Parse baseURL) as [err | u]; [discriminate |].
    intros H. injection H as <-. done. }
  destruct Hc as [Hu Hua].
  destruct (Copy_fold_config url_t hc_t DefaultClient hcs c0) as [Eb Eu].
  fold c in Eb, Eu.
  split_and!.
  - by rewrite Eb.
  - by rewrite Eu.
  - rewrite Eu, Hua. destruct (String.eqb_spec ua ""); [discriminate | done].
  - intros method urlStr params body req Hr.
    destruct (NewRequest_inr url_t url_parse_ref url_set_params url_String body_t json_encode
                http_NewRequest c.1 method urlStr params body req Hr)
      as (_ & u & buf & req0 & _ & _ & _ & _ & _ & _ & Hua' & _).
    by rewrite Hua', Eu, Hua.
Qed.

Lemma New_Copy_NewRequest_user_agent_witness :
  New string (fun s => inr s) unit tt "https://api.example.com" "" None
    = inr (mkClient string "https://api.example.com" "httpx", tt) /\
  let c := fold_left (Copy string unit tt) [Some tt; None]
             (mkClient string "https://api.example.com" "httpx", tt) in
  (fun s => @inr error string s) "https://api.example.com"%string = inr (BaseURL c.1) /\
  UserAgent c.1 = (if String.eqb "" "" then "httpx"%string else "") /\
  UserAgent c.1 <> ""%string /\
  forall method urlStr params body req,
    NewRequest string toy_parse_ref toy_set_params (fun u => u) string toy_encode
      toy_NewRequest c.1 method urlStr params body = inr req ->
    header_get "User-Agent" (Header req) = Some [if String.eqb "" "" then "httpx"%string else ""].
Proof.
  assert (H : New string (fun s => inr s) unit tt "https://api.example.com" "" None
              = inr (mkClient string "https://api.example.com" "httpx", tt)) by reflexivity.
  split; [exact H |].
  exact (New_Copy_NewRequest_user_agent string (fun s => inr s) unit tt toy_parse_ref
           toy_set_params (fun u => u) string toy_encode toy_NewRequest
           "https://api.example.com" "" None _ [Some tt; None] H).
Defined.

(* ================================================================== *)
(** ** Further properties of Do *)

(** [Do] returns a non-nil [*Response] exactly when [v] is non-nil, the
    request got a response, and its status is outside [400, 599]; the
    response is then the received one with an empty [ErrMessage]. *)
Theorem Do_response_iff (ctx : option ctx_err) (sent : client_result) (v : target)
    (resp : Response) :
  (Do ctx sent v).1.1 = Some resp <->
  v <> TNil /\ exists r, sent = CResp r /\ HasError (mkResponse r "") = false /\
    resp = mkResponse r "".
Proof.
  destruct v as [| w | slot]; simpl.
  { split; [discriminate | intros [H _]; congruence]. }
  all: destruct sent as [r | err]; [| destruct ctx; simpl;
         (split; [discriminate | intros (_ & r' & H & _); discriminate])].
  all: destruct (HasError (mkResponse r "")) eqn:Eh.
  all: try (destruct (rerr (Body r)) as [err |]; simpl;
            (split; [discriminate | intros (_ & r' & H & H1 & _); injection H as <-; congruence])).
  - destruct (io_copy w (Body r)) as [w' x]. simpl.
    split; [intros H; injection H as <-; split; [discriminate | by exists r] |].
    intros (_ & r' & H & _ & ->). by injection H as ->.
  - destruct (Decode (Body r) (TValue slot)) as [v' [e |]]; [destruct (is_EOF e) |]; simpl;
    (split; [intros H; injection H as <-; split; [discriminate | by exists r] |]);
    intros (_ & r' & H & _ & ->); by injection H as ->.
Qed.



(** Once a response was received, the state of [ctx] plays no part:
    a canceled or expired context gives the same result as a live one. *)
Theorem Do_response_ignores_ctx (ctx1 ctx2 : option ctx_err) (r : http_response) (v : target) :
  Do ctx1 (CResp r) v = Do ctx2 (CResp r) v.
Proof. destruct v; reflexivity. Qed.

(** A body holding only white space decodes to nothing: the response is
    returned, the target is untouched, and the only possible error is a
    read error other than [io.EOF]. *)
Theorem Do_whitespace_body (ctx : option ctx_err) (r : http_response) (slot : option jvalue) :
  HasError (mkResponse r "") = false ->
  skip_ws (rdata (Body r)) = [] ->
  Do ctx (CResp r) (TValue slot) =
    (Some (mkResponse r ""),
     match rerr (Body r) with
     | Some e => if is_EOF e then None else Some e
     | None => None
     end,
     TValue slot).
Proof.
  intros Hh Hw. simpl. rewrite Hh. unfold Decode, json_decode.
  replace (parse_value (S (length (rdata (Body r)))) 0 (rdata (Body r))) with (@PEof jvalue)
    by (simpl; by rewrite Hw).
  destruct (rerr (Body r)) as [e |].
  - by destruct (is_EOF e).
  - by rewrite bool_decide_eq_true_2 by exact Hw.
Qed.

Lemma Do_whitespace_body_witness :
  let r := mkHttpResponse 204 "DELETE" "https://api.example.com/users/1"
             (mkReader (list_ascii_of_string " ") (Some (ErrIO "connection reset"))) in
  HasError (mkResponse r "") = false /\ skip_ws (rdata (Body r)) = [] /\
  Do None (CResp r) (TValue None) =
    (Some (mkResponse r ""),
     match rerr (Body r) with
     | Some e => if is_EOF e then None else Some e
     | None => None
     end,
     TValue None).
Proof.
  intros r.
  assert (H1 : HasError (mkResponse r "") = false) by reflexivity.
  assert (H2 : skip_ws (rdata (Body r)) = []) by reflexivity.
  split_and!; [exact H1 | exact H2 | exact (Do_whitespace_body None r None H1 H2)].
Defined.

(** With an [io.Writer] target and a non-error status, the raw body is
    written to the writer (as much of it as the writer accepts), no error
    is returned, and nothing is decoded. *)
Theorem Do_writer_receives_body (ctx : option ctx_err) (r : http_response) (w : writer) :
  HasError (mkResponse r "") = false ->
  exists w', Do ctx (CResp r) (TWriter w) = (Some (mkResponse r ""), None, TWriter w') /\
    wbuf w' = wbuf w ++ match wroom w with
                        | None => rdata (Body r)
                        | Some k => firstn k (rdata (Body r))
                        end.
Proof.
  intros Hh. simpl. rewrite Hh. unfold io_copy.
  destruct (wroom w) as [k |]; [| by eexists].
  destruct (Nat.leb_spec (length (rdata (Body r))) k) as [Hle | Hgt]; (eexists; split; [done |]).
  - simpl. by rewrite firstn_all2 by exact Hle.
  - done.
Qed.

Lemma Do_writer_receives_body_witness :
  let r := mkHttpResponse 200 "GET" "https://api.example.com/file"
             (mkReader (list_ascii_of_string "hello") None) in
  HasError (mkResponse r "") = false /\
  exists w', Do None (CResp r) (TWriter (mkWriter [] (Some 3%nat)))
               = (Some (mkResponse r ""), None, TWriter w') /\
    wbuf w' = [] ++ firstn 3 (rdata (Body r)).
Proof.
  intros r.
  assert (H : HasError (mkResponse r "") = false) by reflexivity.
  split; [exact H | exact (Do_writer_receives_body None r (mkWriter [] (Some 3%nat)) H)].
Defined.

(* ================================================================== *)
(** ** Further properties of cloneRequest and RoundTrip *)

(** [cloneRequest] writes no existing cell and returns a new request
    that looks exactly like the original, with a new non-nil header map
    (even when the original's is nil) whose value slices are nil or new
    arrays. *)
Theorem cloneRequest_fresh_copy (s : store) (r : loc) :
  wf_req s r ->
  exists s', cloneRequest s r = Ret (s', length s) /\ frame s s' /\
    request_view s' (length s) = request_view s r /\
    request_view s' r = request_view s r /\
    exists rq2 hl h2, s' !! length s = Some (OReq rq2) /\ rHeader rq2 = Some hl /\
      (length s < hl)%nat /\ s' !! hl = Some (OHeader h2) /\
      Forall (fun e => slice_fresh (length s) e.2) h2.
Proof.
  intros Hwf.
  destruct (cloneRequest_spec s r Hwf)
    as (rq & s1 & h2 & Hr & Hc & F1 & S1 & Hr1 & Hh1 & T1 & Fr1 & V1).
  exists s1. split_and!; [exact Hc | exact F1 | | |].
  - unfold request_view. rewrite Hr1, Hr. simpl.
    unfold header_view at 1. rewrite Hh1. unfold sview in V1. by rewrite V1.
  - exact (request_view_frame s s1 r F1 Hwf).
  - eexists _, (S (length s)), h2. split_and!; [exact Hr1 | reflexivity | lia | exact Hh1 | exact Fr1].
Qed.

(** At a request with a header map and a value slice, and at a zero
    request with a nil header map. *)
Lemma cloneRequest_fresh_copy_witness :
  let s := [OReq (mkReq "GET" (Some 3%nat) (Some 1%nat) None "api.example.com");
            OHeader [("Accept", Some 2%nat)]; OArray ["application/json"]; OOpaque] in
  let s0 := [OReq (mkReq "GET" None None None "api.example.com")] in
  (wf_req s 0 /\
   exists s', cloneRequest s 0 = Ret (s', length s) /\ frame s s' /\
     request_view s' (length s) = request_view s 0 /\
     request_view s' 0 = request_view s 0 /\
     exists rq2 hl h2, s' !! length s = Some (OReq rq2) /\ rHeader rq2 = Some hl /\
       (length s < hl)%nat /\ s' !! hl = Some (OHeader h2) /\
       Forall (fun e => slice_fresh (length s) e.2) h2) /\
  (wf_req s0 0 /\
   exists s', cloneRequest s0 0 = Ret (s', length s0) /\ frame s0 s' /\
     request_view s' (length s0) = request_view s0 0 /\
     request_view s' 0 = request_view s0 0 /\
     exists rq2 hl h2, s' !! length s0 = Some (OReq rq2) /\ rHeader rq2 = Some hl /\
       (length s0 < hl)%nat /\ s' !! hl = Some (OHeader h2) /\
       Forall (fun e => slice_fresh (length s0) e.2) h2).
Proof.
  intros s s0.
  assert (Hwf : wf_req s 0).
  { exists (mkReq "GET" (Some 3%nat) (Some 1%nat) None "api.example.com").
    split; [reflexivity |]. exists [("Accept"%string, Some 2%nat)].
    split_and!; [reflexivity | apply NoDup_singleton | repeat constructor].
    simpl. by exists ["application/json"%string]. }
  assert (Hwf0 : wf_req s0 0) by (eexists; split; [reflexivity | exact I]).
  split; (split; [assumption |]).
  - exact (cloneRequest_fresh_copy s 0 Hwf).
  - exact (cloneRequest_fresh_copy s0 0 Hwf0).
Defined.

(** Without a token, [RoundTrip] sends nothing: a nil [Source] gives the
    "auth: Transport's Source is nil" error, and an error of the source
    comes back wrapped with "roundtrip error"; the caller's request is
    unchanged in both cases. *)
Theorem RoundTrip_error_paths (src : source) (s : store) (r : loc) :
  wf_req s r ->
  match src with
  | Some (inr _) => True
  | Some (inl err) =>
      exists s', RoundTrip src s r = Ret (s', RTErr (ErrWrap "roundtrip error" err)) /\
        frame s s' /\ request_view s' r = request_view s r
  | None =>
      exists s', RoundTrip src s r = Ret (s', RTErr (ErrText "auth: Transport's Source is nil")) /\
        frame s s' /\ request_view s' r = request_view s r
  end.
Proof.
  intros Hwf.
  destruct (cloneRequest_spec s r Hwf)
    as (rq & s1 & h2 & Hr & Hc & F1 & _).
  pose proof (request_view_frame s s1 r F1 Hwf) as V.
  unfold RoundTrip. rewrite Hc.
  destruct src as [[err | tok] |]; [| exact I |]; exists s1; split_and!; done.
Qed.

Lemma RoundTrip_error_paths_witness :
  let s := [OReq (mkReq "GET" None None None "api.example.com")] in
  wf_req s 0 /\
  exists s', RoundTrip (Some (inl (ErrText "token expired"))) s 0
               = Ret (s', RTErr (ErrWrap "roundtrip error" (ErrText "token expired"))) /\
    frame s s' /\ request_view s' 0 = request_view s 0.
Proof.
  intros s.
  assert (Hwf : wf_req s 0) by (eexists; split; [reflexivity | exact I]).
  split; [exact Hwf | exact (RoundTrip_error_paths (Some (inl (ErrText "token expired"))) s 0 Hwf)].
Defined.

(** A nil request (no request struct at [r]) makes [RoundTrip] panic in
    [cloneRequest], before the token source is consulted. *)
Theorem RoundTrip_nil_request_panics (src : source) (s : store) (r : loc) :
  (forall rq, s !! r <> Some (OReq rq)) -> RoundTrip src s r = Panic.
Proof.
  intros Hn. unfold RoundTrip, cloneRequest.
  destruct (s !! r) as [[rq | | |] |] eqn:E; try reflexivity.
  exfalso. exact (Hn rq eq_refl).
Qed.

Lemma RoundTrip_nil_request_panics_witness :
  (forall rq, [OOpaque] !! 3%nat <> Some (OReq rq)) /\
  RoundTrip None [OOpaque] 3 = Panic.
Proof.
  assert (H : forall rq, [OOpaque] !! 3%nat <> Some (OReq rq)) by (intros rq; discriminate).
  split; [exact H | exact (RoundTrip_nil_request_panics None [OOpaque] 3 H)].
Defined.

(** Every error of [NewMultiPartRequest] carries its "httpx new multi
    part request error" prefix; a nil body is reported before the URL is
    looked at. *)
Theorem NewMultiPartRequest_error_prefix
    (url_t : Type) (url_parse_ref : url_t -> string -> error + url_t)
    (url_String : url_t -> string)
    (http_NewRequest : string -> string -> option (list ascii) -> error + http_request)
    (c : Client url_t) (method urlStr : string) (body : option (list ascii))
    (contentType : string) (e : error) :
  NewMultiPartRequest url_t url_parse_ref url_String http_NewRequest c method urlStr
    body contentType = inl e ->
  (body = None /\ e = ErrText "httpx new multi part request error: expected not nil body") \/
  (body <> None /\ has_slash_prefix urlStr = false /\
   e = ErrSlash "httpx new multi part request error" urlStr) \/
  exists e', e = ErrWrap "httpx new multi part request error" e' /\
    (url_parse_ref (BaseURL c) urlStr = inl e' \/
     exists s, http_NewRequest method s body = inl e').
Proof.
  unfold NewMultiPartRequest.
  destruct body as [b |]; [| intros H; injection H as <-; by left].
  destruct (has_slash_prefix urlStr); simpl;
    [| intros H; injection H as <-; right; left; split_and!; [discriminate | done | done]].
  destruct (url_parse_ref (BaseURL c) urlStr) as [err | u];
    [intros H; injection H as <-; right; right; exists err; by split; [| left] |].
  destruct (http_NewRequest _ _ _) as [err | req] eqn:Er; [| discriminate].
  intros H. injection H as <-. right; right. exists err. split; [done |]. right. by eexists.
Qed.

Lemma NewMultiPartRequest_error_prefix_witness :
  NewMultiPartRequest string toy_parse_ref (fun u => u) toy_NewRequest toy_client
    "POST" "/upload" None "text/plain"
  = inl (ErrText "httpx new multi part request error: expected not nil body") /\
  ((@None (list ascii) = None /\
    ErrText "httpx new multi part request error: expected not nil body"
      = ErrText "httpx new multi part request error: expected not nil body") \/
   (@None (list ascii) <> None /\ has_slash_prefix "/upload" = false /\
    ErrText "httpx new multi part request error: expected not nil body"
      = ErrSlash "httpx new multi part request error" "/upload") \/
   exists e', ErrText "httpx new multi part request error: expected not nil body"
                = ErrWrap "httpx new multi part request error" e' /\
     (toy_parse_ref (BaseURL toy_client) "/upload" = inl e' \/
      exists s, toy_NewRequest "POST" s None = inl e')).
Proof.
  assert (H : NewMultiPartRequest string toy_parse_ref (fun u => u) toy_NewRequest toy_client
                "POST" "/upload" None "text/plain"
              = inl (ErrText "httpx new multi part request error: expected not nil body"))
    by reflexivity.
  split; [exact H |].
  exact (NewMultiPartRequest_error_prefix string toy_parse_ref (fun u => u) toy_NewRequest
           toy_client "POST" "/upload" None "text/plain" _ H).
Defined.

(** Near the top of the int64 range [now + 10] wraps to a negative
    number, so every non-empty token with a positive expiry is reported
    valid there, however long ago it expired. *)
Theorem Valid_overflow (t : JWTToken) (now : Z) :
  int64_max - 9 <= now <= int64_max -> token t <> ""%string -> 0 < expiredAt t ->
  Valid now (Some t) = true.
Proof.
  intros Hn Ht He. unfold Valid, almostExpired.
  destruct (String.eqb_spec (token t) ""); [contradiction |]. simpl.
  rewrite (proj2 (Z.eqb_neq _ 0)) by lia. simpl.
  unfold wrap64. unfold int64_max in Hn.
  rewrite (Z.mod_eq (now + 10 + 2 ^ 63)) by lia.
  replace ((now + 10 + 2 ^ 63) / 2 ^ 64) with 1.
  - rewrite Z.gtb_ltb. apply negb_true_iff, Z.ltb_ge. lia.
  - apply Z.div_unique with (now + 10 + 2 ^ 63 - 2 ^ 64); lia.
Qed.

Lemma Valid_overflow_witness :
  int64_max - 9 <= int64_max <= int64_max /\ token (mkJWT "h.eyJleHAiOjF9.s" 1) <> ""%string /\
  0 < expiredAt (mkJWT "h.eyJleHAiOjF9.s" 1) /\
  Valid int64_max (Some (mkJWT "h.eyJleHAiOjF9.s" 1)) = true.
Proof.
  assert (H1 : int64_max - 9 <= int64_max <= int64_max) by (unfold int64_max; lia).
  assert (H2 : token (mkJWT "h.eyJleHAiOjF9.s" 1) <> ""%string) by discriminate.
  assert (H3 : 0 < expiredAt (mkJWT "h.eyJleHAiOjF9.s" 1)) by (simpl; lia).
  refine (conj H1 (conj H2 (conj H3 _))).
  exact (Valid_overflow _ _ H1 H2 H3).
Defined.
